(** * dataloc: locating table-driven test cases in source text

    A shallow embedding of [dataloc/dataloc.go].  The Go program obtains the
    file and line of a stack frame, parses that file with [go/parser], walks
    the syntax tree twice with [ast.Inspect] and answers with the position of
    the test-case literal whose key equals a run-time string.

    The host facilities the program calls but does not define
    ([runtime.Caller], [os.Getwd], [filepath.Rel], [parser.ParseFile],
    [strconv.Quote], the [log] sink) are inputs of the model: the first four
    are fields of a [World], the quoting function is a section variable and
    the log is a list of lines threaded through the calls. *)

From Stdlib Require Import ZArith String Ascii List Bool.
From stdpp Require Import gmap strings list fin_maps pretty.

Set Warnings "-register-all".

Local Open Scope Z_scope.

(** ** Results of Go calls *)

(** A Go [error] value is represented by its message. *)
Definition Error := string.

(** A call returning [(T, error)]. *)
Inductive result (A : Type) : Type :=
| Ok (a : A)
| Err (e : Error).
Arguments Ok {A} a.
Arguments Err {A} e.

(** A Go computation either returns or panics at run time. *)
Inductive outcome (A : Type) : Type :=
| Ret (a : A)
| Panic (msg : string).
Arguments Ret {A} a.
Arguments Panic {A} msg.

Definition obind {A B : Type} (m : outcome A) (k : A -> outcome B) : outcome B :=
  match m with
  | Ret a => k a
  | Panic msg => Panic msg
  end.

Notation "'let*' x := m 'in' k" := (obind m (fun x => k))
  (at level 10, x name, m at level 200, k at level 200,
   format "'[' 'let*'  x  :=  m  'in' '//' k ']'").

Definition omap {A B : Type} (f : A -> B) (m : outcome A) : outcome B :=
  match m with
  | Ret a => Ret (f a)
  | Panic msg => Panic msg
  end.

(** [l[i]] on a slice: Go panics when the index is out of range. *)
Definition index {A : Type} (l : list A) (i : nat) : outcome A :=
  match l !! i with
  | Some a => Ret a
  | None => Panic "index out of range"
  end.

(** ** Syntax trees ([go/ast], [go/token]) *)

(** [token.Position] as reported by [fset.Position]. *)
Record Position : Type := mkPosition {
  Filename : string;
  Line : Z
}.

(** The tokens the program compares against: literal kinds of a
    [BasicLit] and keywords of a [GenDecl]. *)
Inductive Token : Type :=
| INT | FLOAT | IMAG | CHAR | STRING
| IMPORT | CONST | TYPE | VAR.

Definition Token_eqb (a b : Token) : bool :=
  match a, b with
  | INT, INT | FLOAT, FLOAT | IMAG, IMAG | CHAR, CHAR | STRING, STRING
  | IMPORT, IMPORT | CONST, CONST | TYPE, TYPE | VAR, VAR => true
  | _, _ => false
  end.

(** [*ast.Object]: the handle the parser attaches to every identifier it
    resolves to a declaration of the same file.  Pointer identity is the
    identity of the handle; [None] is the nil pointer of an identifier the
    parser left unresolved. *)
Definition Object := positive.

(** [ast.Ident]. *)
Record ident : Type := mkIdent {
  NamePos : Position;
  Name : string;
  Obj : option Object
}.

(** [ast.Node].  The kinds the program inspects have their own constructor,
    with the children [ast.Walk] visits, in its order; every other kind is
    [Other] with its children.  An absent optional child (a nil interface)
    is [None].  The universe is single-sorted: where go/ast fixes the kind of
    a child ([StructType.Fields] is a [FieldList], its [List] holds
    [Field]s) the functions below match on the kind. *)
Inductive Node : Type :=
| Ident (id : ident)
| BasicLit (pos : Position) (Kind : Token) (Value : string)
| CompositeLit (pos : Position) (Type_ : option Node) (Elts : list Node)
| KeyValueExpr (pos : Position) (Key Value : Node)
| SelectorExpr (pos : Position) (X : Node) (Sel : ident)
| CallExpr (pos : Position) (Fun : Node) (Args : list Node)
| ArrayType (pos : Position) (Len : option Node) (Elt : Node)
| MapType (pos : Position) (Key Value : Node)
| StructType (pos : Position) (Fields : Node)
| FieldList (pos : Position) (List_ : list Node)
| Field (pos : Position) (Names : list ident) (Type_ : Node) (Tag : option Node)
| RangeStmt (pos : Position) (Key Value : option Node) (X : Node) (Body : Node)
| AssignStmt (pos : Position) (Lhs Rhs : list Node)
| GenDecl (pos : Position) (Tok : Token) (Specs : list Node)
| ValueSpec (pos : Position) (Names : list ident) (Type_ : option Node)
    (Values : list Node)
| TypeSpec (pos : Position) (Name_ : ident) (TypeParams : option Node)
    (Type_ : Node)
| Other (pos : Position) (children : list Node).

(** [n.Pos()] mapped through [fset.Position]. *)
Definition nodePos (n : Node) : Position :=
  match n with
  | Ident id => NamePos id
  | BasicLit p _ _ | CompositeLit p _ _ | KeyValueExpr p _ _
  | SelectorExpr p _ _ | CallExpr p _ _ | ArrayType p _ _ | MapType p _ _
  | StructType p _ | FieldList p _ | Field p _ _ _ | RangeStmt p _ _ _ _
  | AssignStmt p _ _ | GenDecl p _ _ | ValueSpec p _ _ _ | TypeSpec p _ _ _
  | Other p _ => p
  end.

Definition optList {A : Type} (o : option A) : list A :=
  match o with
  | Some a => [a]
  | None => []
  end.

(** The children of a node, in the order of [ast.Walk]. *)
Definition children (n : Node) : list Node :=
  match n with
  | Ident _ | BasicLit _ _ _ => []
  | CompositeLit _ ty elts => optList ty ++ elts
  | KeyValueExpr _ k v => [k; v]
  | SelectorExpr _ x sel => [x; Ident sel]
  | CallExpr _ f args => f :: args
  | ArrayType _ len elt => optList len ++ [elt]
  | MapType _ k v => [k; v]
  | StructType _ fields => [fields]
  | FieldList _ l => l
  | Field _ names ty tag => map Ident names ++ [ty] ++ optList tag
  | RangeStmt _ k v x body => optList k ++ optList v ++ [x; body]
  | AssignStmt _ lhs rhs => lhs ++ rhs
  | GenDecl _ _ specs => specs
  | ValueSpec _ names ty values => map Ident names ++ optList ty ++ values
  | TypeSpec _ name tparams ty => [Ident name] ++ optList tparams ++ [ty]
  | Other _ cs => cs
  end.

(** ** [ast.Inspect] *)

Section Inspect.
Context {S : Type}.

(** The visitor: given a node and the state of the variables it closes
    over, it updates them and tells whether to descend; it may panic. *)
Variable f : Node -> S -> outcome (S * bool).

(** Pre-order traversal; the children of a node are skipped when the
    visitor answers [false].  ([ast.Inspect] also calls the visitor with
    nil after the children; both visitors of [loc] do nothing then.) *)
Fixpoint Inspect (n : Node) (s : S) : outcome S :=
  let* r := f n s in
  let '(s1, descend) := r in
  if negb descend then Ret s1 else
  let seq := fix seq (l : list Node) (s : outcome S) : outcome S :=
    match l with
    | [] => s
    | c :: l' => seq l' (let* s0 := s in Inspect c s0)
    end in
  let opt := fun (o : option Node) (s : outcome S) =>
    match o with
    | Some c => let* s0 := s in Inspect c s0
    | None => s
    end in
  let one := fun (c : Node) (s : outcome S) => let* s0 := s in Inspect c s0 in
  let leaf := fun (id : ident) (s : outcome S) =>
    let* s0 := s in let* r0 := f (Ident id) s0 in Ret (fst r0) in
  let leaves := fix leaves (l : list ident) (s : outcome S) : outcome S :=
    match l with
    | [] => s
    | id :: l' => leaves l' (leaf id s)
    end in
  match n with
  | Ident _ | BasicLit _ _ _ => Ret s1
  | CompositeLit _ ty elts => seq elts (opt ty (Ret s1))
  | KeyValueExpr _ k v => one v (one k (Ret s1))
  | SelectorExpr _ x sel => leaf sel (one x (Ret s1))
  | CallExpr _ fn args => seq args (one fn (Ret s1))
  | ArrayType _ len elt => one elt (opt len (Ret s1))
  | MapType _ k v => one v (one k (Ret s1))
  | StructType _ fields => one fields (Ret s1)
  | FieldList _ l => seq l (Ret s1)
  | Field _ names ty tag => opt tag (one ty (leaves names (Ret s1)))
  | RangeStmt _ k v x body => one body (one x (opt v (opt k (Ret s1))))
  | AssignStmt _ lhs rhs => seq rhs (seq lhs (Ret s1))
  | GenDecl _ _ specs => seq specs (Ret s1)
  | ValueSpec _ names ty values => seq values (opt ty (leaves names (Ret s1)))
  | TypeSpec _ name tparams ty => one ty (opt tparams (leaf name (Ret s1)))
  | Other _ cs => seq cs (Ret s1)
  end.
End Inspect.

(** [visitAll g l s]: run [g] on the nodes of [l] from left to right,
    threading the state and stopping at the first panic. *)
Definition visitAll {S : Type} (g : Node -> S -> outcome S)
    (l : list Node) (s : S) : outcome S :=
  fold_left (fun acc c => let* s0 := acc in g c s0) l (Ret s).

(** All nodes of a tree, the root first. *)
Fixpoint subnodes (n : Node) : list Node :=
  n ::
  match n with
  | Ident _ | BasicLit _ _ _ => []
  | CompositeLit _ ty elts =>
      match ty with Some t => subnodes t | None => [] end
      ++ flat_map subnodes elts
  | KeyValueExpr _ k v => subnodes k ++ subnodes v
  | SelectorExpr _ x sel => subnodes x ++ [Ident sel]
  | CallExpr _ fn args => subnodes fn ++ flat_map subnodes args
  | ArrayType _ len elt =>
      match len with Some t => subnodes t | None => [] end ++ subnodes elt
  | MapType _ k v => subnodes k ++ subnodes v
  | StructType _ fields => subnodes fields
  | FieldList _ l => flat_map subnodes l
  | Field _ names ty tag =>
      map Ident names ++ subnodes ty
      ++ match tag with Some t => subnodes t | None => [] end
  | RangeStmt _ k v x body =>
      match k with Some t => subnodes t | None => [] end
      ++ match v with Some t => subnodes t | None => [] end
      ++ subnodes x ++ subnodes body
  | AssignStmt _ lhs rhs => flat_map subnodes lhs ++ flat_map subnodes rhs
  | GenDecl _ _ specs => flat_map subnodes specs
  | ValueSpec _ names ty values =>
      map Ident names
      ++ match ty with Some t => subnodes t | None => [] end
      ++ flat_map subnodes values
  | TypeSpec _ name tparams ty =>
      [Ident name]
      ++ match tparams with Some t => subnodes t | None => [] end
      ++ subnodes ty
  | Other _ cs => flat_map subnodes cs
  end.

(** ** The binding index *)

(** The four maps of [loc], keyed by [*ast.Object] (nil included, as a Go
    map allows).  A lookup that misses yields the nil expression, [None]. *)
Record BindingIndex : Type := mkIndex {
  objToTypeDecl : gmap (option Object) Node;
  objToVarInit : gmap (option Object) Node;
  objToRangeExprForValue : gmap (option Object) Node;
  objToRangeExprForKey : gmap (option Object) Node
}.

Definition emptyIndex : BindingIndex := mkIndex ∅ ∅ ∅ ∅.

Definition setTypeDecl (o : option Object) (e : Node) (ix : BindingIndex) :=
  mkIndex (<[o := e]> (objToTypeDecl ix)) (objToVarInit ix)
          (objToRangeExprForValue ix) (objToRangeExprForKey ix).

Definition setVarInit (o : option Object) (e : Node) (ix : BindingIndex) :=
  mkIndex (objToTypeDecl ix) (<[o := e]> (objToVarInit ix))
          (objToRangeExprForValue ix) (objToRangeExprForKey ix).

Definition setRangeExprForValue (o : option Object) (e : Node)
    (ix : BindingIndex) :=
  mkIndex (objToTypeDecl ix) (objToVarInit ix)
          (<[o := e]> (objToRangeExprForValue ix)) (objToRangeExprForKey ix).

Definition setRangeExprForKey (o : option Object) (e : Node)
    (ix : BindingIndex) :=
  mkIndex (objToTypeDecl ix) (objToVarInit ix)
          (objToRangeExprForValue ix) (<[o := e]> (objToRangeExprForKey ix)).

(** [const debug = false]: [debugf] prints nothing. *)
Definition debug : bool := false.

Definition debugf (msg : string) : list string :=
  if debug then ["debug: " +:+ msg] else [].

Definition logf (msg : string) : list string := [msg].

(** [len(l)] as a Go int. *)
Definition len {A : Type} (l : list A) : Z := Z.of_nat (length l).

(** The loop over [valueSpec.Names] of a [var] declaration (lines 97-101):
    the name at position [i] is recorded when [i < len(Values)-1]. *)
Fixpoint indexValueSpecNames (names : list ident) (values : list Node)
    (i : nat) (ix : BindingIndex) : outcome BindingIndex :=
  match names with
  | [] => Ret ix
  | name :: names' =>
      let* ix1 :=
        (if Z.of_nat i <? len values - 1
         then let* v := index values i in Ret (setVarInit (Obj name) v ix)
         else Ret ix) in
      indexValueSpecNames names' values (S i) ix1
  end.

(** The loop over [genDecl.Specs] of a [var] declaration (lines 95-103). *)
Fixpoint indexVarSpecs (specs : list Node) (ix : BindingIndex)
    : outcome BindingIndex :=
  match specs with
  | [] => Ret ix
  | spec :: specs' =>
      let* ix1 :=
        match spec with
        | ValueSpec _ names _ values => indexValueSpecNames names values 0 ix
        | _ => Ret ix
        end in
      indexVarSpecs specs' ix1
  end.

(** The loop over [genDecl.Specs] of a [type] declaration (lines 105-109). *)
Fixpoint indexTypeSpecs (specs : list Node) (ix : BindingIndex)
    : BindingIndex :=
  match specs with
  | [] => ix
  | spec :: specs' =>
      indexTypeSpecs specs'
        match spec with
        | TypeSpec _ name _ ty => setTypeDecl (Obj name) ty ix
        | _ => ix
        end
  end.

(** The loop over [assignStmt.Lhs] (lines 113-123). *)
Fixpoint indexAssignLhs (lhs rest rhs : list Node) (i : nat)
    (ix : BindingIndex) : outcome BindingIndex :=
  match rest with
  | [] => Ret ix
  | expr :: rest' =>
      let* ix1 :=
        match expr with
        | Ident id =>
            if len lhs =? len rhs
            then let* v := index rhs i in Ret (setVarInit (Obj id) v ix)
            else if len rhs =? 1
            then let* v := index rhs 0 in Ret (setVarInit (Obj id) v ix)
            else Ret ix
        | _ => Ret ix
        end in
      indexAssignLhs lhs rest' rhs (S i) ix1
  end.

(** The first visitor of [loc] (lines 84-127); it always descends. *)
Definition indexVisitor (n : Node) (ix : BindingIndex)
    : outcome (BindingIndex * bool) :=
  match n with
  | RangeStmt _ key value x _ =>
      let ix1 :=
        match value with
        | Some (Ident id) => setRangeExprForValue (Obj id) x ix
        | _ => ix
        end in
      let ix2 :=
        match key with
        | Some (Ident id) => setRangeExprForKey (Obj id) x ix1
        | _ => ix1
        end in
      Ret (ix2, true)
  | GenDecl _ tok specs =>
      if Token_eqb tok VAR
      then let* ix1 := indexVarSpecs specs ix in Ret (ix1, true)
      else if Token_eqb tok TYPE
      then Ret (indexTypeSpecs specs ix, true)
      else Ret (ix, true)
  | AssignStmt _ lhs rhs =>
      let* ix1 := indexAssignLhs lhs lhs rhs 0 ix in Ret (ix1, true)
  | _ => Ret (ix, true)
  end.

(** The index after the first [ast.Inspect] of [loc]. *)
Definition buildIndex (f : Node) : outcome BindingIndex :=
  Inspect indexVisitor f emptyIndex.

(** ** Matching literals *)

Section Program.
(** [strconv.Quote], a function of the Go library: the double-quoted Go
    string literal denoting its argument. *)
Variable Quote : string -> string.

(** [isStringLiteral] (lines 275-284). *)
Definition isStringLiteral (n : Node) (s : string) : bool :=
  match n with
  | BasicLit _ kind value =>
      if negb (Token_eqb kind STRING) then false
      else String.eqb value (Quote s)
  | _ => false
  end.

(** [isSelector] (lines 197-204): the identifier and the selected name of
    [ident.name]. *)
Definition isSelector (n : Node) : option (ident * string) :=
  match n with
  | SelectorExpr _ (Ident id) sel => Some (id, Name sel)
  | _ => None
  end.

(** [isMethodCall] (lines 186-195): the callee and the arguments of the
    call when [n] is a call of [obj.fun]. *)
Definition isMethodCall (n : Node) (obj fn : string)
    : option (Node * list Node) :=
  match n with
  | CallExpr _ callee args =>
      match isSelector callee with
      | Some (id, name) =>
          if String.eqb (Name id) obj && String.eqb name fn
          then Some (callee, args)
          else None
      | None => None
      end
  | _ => None
  end.

(** The inner loop of [findStructFieldIndex] (lines 293-297). *)
Fixpoint fieldHasName (names : list ident) (name : string) : bool :=
  match names with
  | [] => false
  | id :: names' =>
      if String.eqb (Name id) name then true else fieldHasName names' name
  end.

(** The outer loop of [findStructFieldIndex] (lines 292-298); [i] is the
    index of the head of [fields] in [typ.Fields.List]. *)
Fixpoint findStructFieldIndexFrom (fields : list Node) (i : Z)
    (name : string) : Z :=
  match fields with
  | [] => -1
  | field :: fields' =>
      if match field with
         | Field _ names _ _ => fieldHasName names name
         | _ => false
         end
      then i
      else findStructFieldIndexFrom fields' (i + 1) name
  end.

(** [findStructFieldIndex] (lines 286-301). *)
Definition findStructFieldIndex (t : Node) (name : string) : Z :=
  match t with
  | StructType _ (FieldList _ l) => findStructFieldIndexFrom l 0 name
  | _ => -1
  end.

(** The loop over the fields of one test case (lines 251-269): [true]
    when the loop returns the test case. *)
Fixpoint testcaseFieldsMatch (testcaseType : Node) (key value : string)
    (fields : list Node) (i : Z) : bool :=
  match fields with
  | [] => false
  | field :: fields' =>
      if match field with
         | KeyValueExpr _ k v =>
             match k with
             | Ident id =>
                 if String.eqb (Name id) key
                 then isStringLiteral v value
                 else false
             | _ => false
             end
         | BasicLit _ _ _ =>
             if findStructFieldIndex testcaseType key =? i
             then isStringLiteral field value
             else false
         | _ => false
         end
      then true
      else testcaseFieldsMatch testcaseType key value fields' (i + 1)
  end.

(** The loop over [testcases.Elts] (lines 233-270). *)
Fixpoint findInElts (testcaseType : Node) (key value : string)
    (elts : list Node) : option Node :=
  match elts with
  | [] => None
  | testcase :: elts' =>
      if match testcase with
         | KeyValueExpr _ (BasicLit _ _ _ as basic) _ =>
             isStringLiteral basic value
         | _ => false
         end
      then Some testcase
      else
        match testcase with
        | CompositeLit _ _ fields =>
            if testcaseFieldsMatch testcaseType key value fields 0
            then Some testcase
            else findInElts testcaseType key value elts'
        | _ => findInElts testcaseType key value elts'
        end
  end.

(** [findTestCaseItem] (lines 206-273): the node found, nil ([None])
    otherwise, and the lines it logs. *)
Definition findTestCaseItem (init : option Node) (key value : string)
    (typeDecl : gmap (option Object) Node) : option Node * list string :=
  match init with
  | Some (CompositeLit _ ty elts) =>
      match ty with
      | Some (ArrayType _ _ elt) =>
          match elt with
          | Ident id =>
              match typeDecl !! Obj id with
              | Some t => (findInElts t key value elts, [])
              | None =>
                  (None, logf ("could not resolve type of " +:+ Name id))
              end
          | _ => (findInElts elt key value elts, [])
          end
      | Some (MapType _ _ _ as m) => (findInElts m key value elts, [])
      | _ => (None, debugf "unexpected testcase type")
      end
  | _ => (None, [])
  end.

(** ** The site matcher *)

(** [fmt.Sprintf("%s:%d", pos.Filename, pos.Line)]. *)
Definition formatPos (p : Position) : string :=
  Filename p +:+ ":" +:+ pretty (Line p).

(** The variables the second visitor closes over and writes: [loc] and
    the log sink. *)
Record MatchState : Type := mkMatch {
  locVar : string;
  logged : list string
}.

(** Lines 150-160 and 166-176: from the range expression recorded for the
    argument's identifier to the test case. *)
Definition resolveVia (rangeExpr : option Node) (key value : string)
    (ix : BindingIndex) (st : MatchState) : MatchState * bool :=
  match rangeExpr with
  | Some (Ident testcasesIdent) =>
      let testcasesExpr := objToVarInit ix !! Obj testcasesIdent in
      let '(node, out) :=
        findTestCaseItem testcasesExpr key value (objToTypeDecl ix) in
      match node with
      | Some nd => (mkMatch (formatPos (nodePos nd)) (logged st ++ out), false)
      | None => (mkMatch (locVar st) (logged st ++ out), true)
      end
  | _ => (st, true)
  end.

(** The second visitor of [loc] (lines 130-181). *)
Definition matchVisitor (line : Z) (value : string) (ix : BindingIndex)
    (n : Node) (st : MatchState) : outcome (MatchState * bool) :=
  if negb (Line (nodePos n) =? line) then Ret (st, true)
  else
    match isMethodCall n "dataloc" "L" with
    | Some (_, args) =>
        let* arg := index args 0 in
        match isSelector arg with
        | Some (id, key) =>
            Ret (resolveVia (objToRangeExprForValue ix !! Obj id)
                   key value ix st)
        | None =>
            match arg with
            | Ident id =>
                Ret (resolveVia (objToRangeExprForKey ix !! Obj id)
                       (Name id) value ix st)
            | _ => Ret (st, true)
            end
        end
    | None => Ret (st, true)
    end.

(** ** [loc] and the public entry points *)

(** What a call of [loc] finds around it: the stack as [runtime.Caller]
    reports it from inside [loc] (file, line, ok), the working directory,
    [filepath.Rel], the files [parser.ParseFile] can read, with their
    positions resolved, and what has been logged so far. *)
Record World : Type := mkWorld {
  Caller : Z -> string * Z * bool;
  Getwd : result string;
  Rel : string -> string -> result string;
  ParseFile : string -> result Node;
  Log : list string
}.

Definition withLog (w : World) (l : list string) : World :=
  mkWorld (Caller w) (Getwd w) (Rel w) (ParseFile w) l.

(** [log.Printf("Caller Step %d: %s %d", step, file, line)]. *)
Definition callerLine (step : Z) (file : string) (line : Z) : string :=
  "Caller Step " +:+ pretty step +:+ ": " +:+ file +:+ " " +:+ pretty line.

(** The second traversal as it runs.  A panic unwinds [ast.Inspect]: no
    further node is visited, and what the matcher has logged by then stays
    logged.  [panicked] holds the panic once a visit has raised one;
    [reached] is the state of [loc] and of the log at that moment, or
    after the last visit. *)
Record MatchRun : Type := mkRun {
  reached : MatchState;
  panicked : option string
}.

Definition runVisitor
    (visit : Node -> MatchState -> outcome (MatchState * bool))
    (n : Node) (run : MatchRun) : outcome (MatchRun * bool) :=
  match panicked run with
  | Some _ => Ret (run, false)
  | None =>
      match visit n (reached run) with
      | Ret (st, descend) => Ret (mkRun st None, descend)
      | Panic msg => Ret (mkRun (reached run) (Some msg), false)
      end
  end.

(** [loc] (lines 57-184): the pair it returns, or a panic, and the world
    it leaves, with everything logged up to the return or the panic.  (The
    traversal of [runVisitor] itself always returns; its panic is in
    [panicked].) *)
Definition loc (w : World) (value : string) (step : Z)
    : outcome (string * option Error) * World :=
  let '(file, line, _) := Caller w step in
  let log1 := Log w ++ [callerLine step file line] in
  match Getwd w with
  | Err e => (Ret (EmptyString, Some e), withLog w log1)
  | Ok cwd =>
      match Rel w cwd file with
      | Err e => (Ret (EmptyString, Some e), withLog w log1)
      | Ok file' =>
          match ParseFile w file' with
          | Err e => (Ret (EmptyString, Some e), withLog w log1)
          | Ok f =>
              match buildIndex f with
              | Panic msg => (Panic msg, withLog w log1)
              | Ret ix =>
                  match Inspect (runVisitor (matchVisitor line value ix)) f
                          (mkRun (mkMatch "(unknown)" log1) None) with
                  | Panic msg => (Panic msg, withLog w log1)
                  | Ret run =>
                      match panicked run with
                      | Some msg =>
                          (Panic msg, withLog w (logged (reached run)))
                      | None =>
                          (Ret (locVar (reached run), None),
                           withLog w (logged (reached run)))
                      end
                  end
              end
          end
      end
  end.

(** The wrappers (lines 32-55) keep the string and drop the error. *)
Definition L (w : World) (name : string) : outcome string * World :=
  let '(r, w') := loc w name 2 in (omap fst r, w').

Definition L3 (w : World) (name : string) : outcome string * World :=
  let '(r, w') := loc w name 3 in (omap fst r, w').

Definition L4 (w : World) (name : string) : outcome string * World :=
  let '(r, w') := loc w name 4 in (omap fst r, w').

Definition L5 (w : World) (name : string) : outcome string * World :=
  let '(r, w') := loc w name 5 in (omap fst r, w').

Definition L6 (w : World) (name : string) : outcome string * World :=
  let '(r, w') := loc w name 6 in (omap fst r, w').
End Program.

(** ** Vocabulary of the statements *)

(** What [loc] works on once the caller's file is found and parsed: the
    tree and the caller's line; otherwise the error of the step of lines
    58-73 that failed. *)
Definition resolveCaller (w : World) (step : Z) : result (Node * Z) :=
  let '(file, line, _) := Caller w step in
  match Getwd w with
  | Err e => Err e
  | Ok cwd =>
      match Rel w cwd file with
      | Err e => Err e
      | Ok file' =>
          match ParseFile w file' with
          | Err e => Err e
          | Ok f => Ok (f, line)
          end
      end
  end.

(** The node is a call whose callee is written [obj.fn]. *)
Definition writtenAs (obj fn : string) (n : Node) : Prop :=
  exists p p' id sel args,
    n = CallExpr p (SelectorExpr p' (Ident id) sel) args
    /\ Name id = obj /\ Name sel = fn.


(** The records a node contributes to the four maps: the identifier the
    record is written for and the expression recorded. *)
Inductive declaresType : Node -> ident -> Node -> Prop :=
| declaresType_spec p specs p' name tparams ty :
    In (TypeSpec p' name tparams ty) specs ->
    declaresType (GenDecl p TYPE specs) name ty.

Inductive initializes : Node -> ident -> Node -> Prop :=
| initializes_var p specs p' names ty values (i : nat) id e :
    In (ValueSpec p' names ty values) specs ->
    names !! i = Some id -> values !! i = Some e ->
    initializes (GenDecl p VAR specs) id e
| initializes_assign p lhs rhs (i : nat) id e :
    lhs !! i = Some (Ident id) -> rhs !! i = Some e ->
    initializes (AssignStmt p lhs rhs) id e
| initializes_shared p lhs e id :
    In (Ident id) lhs ->
    initializes (AssignStmt p lhs [e]) id e.

Inductive rangesValue : Node -> ident -> Node -> Prop :=
| rangesValue_stmt p key id x body :
    rangesValue (RangeStmt p key (Some (Ident id)) x body) id x.

Inductive rangesKey : Node -> ident -> Node -> Prop :=
| rangesKey_stmt p id value x body :
    rangesKey (RangeStmt p (Some (Ident id)) value x body) id x.

Section Entries.
Variable Quote : string -> string.

(** A field of a structure literal names the test case: a keyed field
    [key: "value"], or a bare literal ["value"] at the position the
    field indexer gives for [key]. *)
Definition fieldMatches (testcaseType : Node) (key value : string)
    (i : nat) (field : Node) : bool :=
  match field with
  | KeyValueExpr _ (Ident id) v =>
      String.eqb (Name id) key && isStringLiteral Quote v value
  | BasicLit _ _ _ =>
      (findStructFieldIndex testcaseType key =? Z.of_nat i)
      && isStringLiteral Quote field value
  | _ => false
  end.

(** An entry of the table is the test case sought: a mapping entry with
    the literal key ["value"], or a structure literal one of whose
    fields names it. *)
Definition entryMatches (testcaseType : Node) (key value : string)
    (entry : Node) : bool :=
  match entry with
  | KeyValueExpr _ (BasicLit _ _ _ as k) _ => isStringLiteral Quote k value
  | CompositeLit _ _ fields =>
      existsb (fun '(i, field) => fieldMatches testcaseType key value i field)
        (imap pair fields)
  | _ => false
  end.
End Entries.

(** The position of a field name as the positions of an unkeyed structure
    literal count it: every declared name has a position of its own, also
    the names that share a type. *)
Fixpoint namePosition (names : list string) (name : string) (i : Z) : Z :=
  match names with
  | [] => -1
  | n :: names' =>
      if String.eqb n name then i else namePosition names' name (i + 1)
  end.

Definition declaredNames (fields : list Node) : list string :=
  flat_map
    (fun field =>
       match field with
       | Field _ names _ _ => map Name names
       | _ => []
       end)
    fields.

Definition fieldPosition (t : Node) (name : string) : Z :=
  match t with
  | StructType _ (FieldList _ l) => namePosition (declaredNames l) name 0
  | _ => -1
  end.

(** [m'] holds the records of [m] and otherwise only records [W] accounts
    for: every record of [m'] that [m] lacks is stored under the handle of
    an identifier [W] relates to the recorded expression. *)
Definition extends (W : ident -> Node -> Prop)
    (m m' : gmap (option Object) Node) : Prop :=
  forall h e, m' !! h = Some e ->
    m !! h = Some e \/ exists id, W id e /\ Obj id = h.

(** The four maps of [ix'] extend those of [ix] by records of the node. *)
Definition indexExtends (n : Node) (ix ix' : BindingIndex) : Prop :=
  extends (declaresType n) (objToTypeDecl ix) (objToTypeDecl ix')
  /\ extends (initializes n) (objToVarInit ix) (objToVarInit ix')
  /\ extends (rangesValue n) (objToRangeExprForValue ix)
       (objToRangeExprForValue ix')
  /\ extends (rangesKey n) (objToRangeExprForKey ix)
       (objToRangeExprForKey ix').

(** Every record of the index was written by a node of the tree for an
    identifier with the handle it is stored under. *)
Definition indexedBy (root : Node) (ix : BindingIndex) : Prop :=
  extends (fun id e => exists n, In n (subnodes root) /\ declaresType n id e)
    ∅ (objToTypeDecl ix)
  /\ extends (fun id e => exists n, In n (subnodes root) /\ initializes n id e)
       ∅ (objToVarInit ix)
  /\ extends (fun id e => exists n, In n (subnodes root) /\ rangesValue n id e)
       ∅ (objToRangeExprForValue ix)
  /\ extends (fun id e => exists n, In n (subnodes root) /\ rangesKey n id e)
       ∅ (objToRangeExprForKey ix).

(** The element type the entries of a sequence literal are read against:
    a named type is replaced by its declaration in the index, which may be
    missing. *)
Definition elementType (typeDecl : gmap (option Object) Node) (elt : Node)
    : option Node :=
  match elt with
  | Ident id => typeDecl !! Obj id
  | _ => Some elt
  end.

(** [writtenAs], decided. *)
Definition isWrittenAs (obj fn : string) (n : Node) : bool :=
  match n with
  | CallExpr _ (SelectorExpr _ (Ident id) sel) _ =>
      String.eqb (Name id) obj && String.eqb (Name sel) fn
  | _ => false
  end.

(** No node that starts on line [line] of the tree is a call written
    [dataloc.L]. *)
Definition noCallSite (line : Z) (f : Node) : bool :=
  forallb
    (fun m => negb ((Line (nodePos m) =? line) && isWrittenAs "dataloc" "L" m))
    (subnodes f).

(** The public entry points with the stack depth each passes to [loc]. *)
Definition entryPoints (Quote : string -> string)
    : list (Z * (World -> string -> outcome string * World)) :=
  [ (2, L Quote); (3, L3 Quote); (4, L4 Quote); (5, L5 Quote); (6, L6 Quote) ].

(** Two runs of a visitor, or of a traversal, end alike: both panic with
    the same message, or both return, in states that [R] relates. *)
Definition alike {A B : Type} (R : A -> B -> Prop)
    (a : outcome A) (b : outcome B) : Prop :=
  match a, b with
  | Ret x, Ret y => R x y
  | Panic m1, Panic m2 => m1 = m2
  | _, _ => False
  end.

(** ** The records of a node *)

(** Writing a list of records into a map, from left to right: a later
    record for a handle replaces an earlier one. *)
Definition recordAll (records : list (ident * Node))
    (m : gmap (option Object) Node) : gmap (option Object) Node :=
  fold_left (fun m r => <[Obj (fst r) := snd r]> m) records m.

(** An assignment with as many expressions as targets: every target that
    is an identifier, with the expression at its position. *)
Fixpoint pairIdents (lhs rhs : list Node) : list (ident * Node) :=
  match lhs, rhs with
  | l :: lhs', r :: rhs' =>
      match l with
      | Ident id => (id, r) :: pairIdents lhs' rhs'
      | _ => pairIdents lhs' rhs'
      end
  | _, _ => []
  end.

(** An assignment of one expression to several targets: every target that
    is an identifier, with that expression. *)
Fixpoint shareIdents (lhs : list Node) (e : Node) : list (ident * Node) :=
  match lhs with
  | [] => []
  | Ident id :: lhs' => (id, e) :: shareIdents lhs' e
  | _ :: lhs' => shareIdents lhs' e
  end.

Definition assignRecords (lhs rhs : list Node) : list (ident * Node) :=
  if (length lhs =? length rhs)%nat then pairIdents lhs rhs
  else
    match rhs with
    | [e] => shareIdents lhs e
    | _ => []
    end.

(** A [var] specification: the names with the values at their positions,
    the last value left out. *)
Definition varRecords (names : list ident) (values : list Node)
    : list (ident * Node) :=
  combine names (take (length values - 1) values).

Definition varDeclRecords (specs : list Node) : list (ident * Node) :=
  flat_map
    (fun spec =>
       match spec with
       | ValueSpec _ names _ values => varRecords names values
       | _ => []
       end)
    specs.

Definition typeSpecRecords (specs : list Node) : list (ident * Node) :=
  flat_map
    (fun spec =>
       match spec with
       | TypeSpec _ name _ ty => [(name, ty)]
       | _ => []
       end)
    specs.

(** The records one node adds to each of the four maps. *)
Definition typeDeclRecords (n : Node) : list (ident * Node) :=
  match n with
  | GenDecl _ TYPE specs => typeSpecRecords specs
  | _ => []
  end.

Definition varInitRecords (n : Node) : list (ident * Node) :=
  match n with
  | GenDecl _ VAR specs => varDeclRecords specs
  | AssignStmt _ lhs rhs => assignRecords lhs rhs
  | _ => []
  end.

Definition rangeValueRecords (n : Node) : list (ident * Node) :=
  match n with
  | RangeStmt _ _ (Some (Ident id)) x _ => [(id, x)]
  | _ => []
  end.

Definition rangeKeyRecords (n : Node) : list (ident * Node) :=
  match n with
  | RangeStmt _ (Some (Ident id)) _ x _ => [(id, x)]
  | _ => []
  end.

(** The index after the records of one node. *)
Definition indexStep (n : Node) (ix : BindingIndex) : BindingIndex :=
  mkIndex
    (recordAll (typeDeclRecords n) (objToTypeDecl ix))
    (recordAll (varInitRecords n) (objToVarInit ix))
    (recordAll (rangeValueRecords n) (objToRangeExprForValue ix))
    (recordAll (rangeKeyRecords n) (objToRangeExprForKey ix)).

(** The index made of the records of all nodes of a tree, in the order of
    the traversal. *)
Definition indexOf (f : Node) : BindingIndex :=
  mkIndex
    (recordAll (flat_map typeDeclRecords (subnodes f)) ∅)
    (recordAll (flat_map varInitRecords (subnodes f)) ∅)
    (recordAll (flat_map rangeValueRecords (subnodes f)) ∅)
    (recordAll (flat_map rangeKeyRecords (subnodes f)) ∅).

(** The four maps of the index, each with the records that feed it. *)
Definition indexTables
    : list ((Node -> list (ident * Node))
            * (BindingIndex -> gmap (option Object) Node)) :=
  [ (typeDeclRecords, objToTypeDecl);
    (varInitRecords, objToVarInit);
    (rangeValueRecords, objToRangeExprForValue);
    (rangeKeyRecords, objToRangeExprForKey) ].

(** The field at position [i] of a field list declares [name]. *)
Definition declaresName (name : string) (field : Node) : bool :=
  match field with
  | Field _ names _ _ => existsb (fun id => String.eqb (Name id) name) names
  | _ => false
  end.

(** A call [dataloc.L(<arg>, ...)] that starts on the caller's line, and
    is the only form of call written [dataloc.L] on that line. *)
Definition callSite (f : Node) (line : Z) (call arg : Node) : Prop :=
  In call (subnodes f)
  /\ Line (nodePos call) = line
  /\ (exists p callee args,
        call = CallExpr p callee (arg :: args)
        /\ writtenAs "dataloc" "L" call)
  /\ forall m, In m (subnodes f) -> Line (nodePos m) = line ->
       writtenAs "dataloc" "L" m -> m = call.

(** ** The entry a call site leads to *)

Section SiteEntry.
Variable Quote : string -> string.



End SiteEntry.

(** ** A quoting function for ASCII keys *)

Definition dquote : ascii := "034"%char.
Definition backslash : ascii := "092"%char.

Definition hexDigit (n : N) : ascii :=
  match n with
  | 0%N => "0" | 1%N => "1" | 2%N => "2" | 3%N => "3" | 4%N => "4"
  | 5%N => "5" | 6%N => "6" | 7%N => "7" | 8%N => "8" | 9%N => "9"
  | 10%N => "a" | 11%N => "b" | 12%N => "c" | 13%N => "d" | 14%N => "e"
  | _ => "f"
  end%char.

(** What [strconv.Quote] appends for one byte below 0x80: the quote and the
    backslash are escaped, printable characters stand for themselves, the
    control characters have their letter escape or [\xNN].  Bytes from 0x80
    on are written [\xNN], which is what [strconv.Quote] does with a byte
    that is not part of a valid UTF-8 sequence. *)
Definition quoteByte (c : ascii) : string :=
  let n := N_of_ascii c in
  if (Ascii.eqb c dquote || Ascii.eqb c backslash)%bool
  then String backslash (String c EmptyString)
  else if ((32 <=? n) && (n <? 127))%N%bool then String c EmptyString
  else
    match n with
    | 7%N => String backslash "a"
    | 8%N => String backslash "b"
    | 12%N => String backslash "f"
    | 10%N => String backslash "n"
    | 13%N => String backslash "r"
    | 9%N => String backslash "t"
    | 11%N => String backslash "v"
    | _ =>
        String backslash
          (String "x" (String (hexDigit (n / 16)) (String (hexDigit (n mod 16))
             EmptyString)))
    end.

Fixpoint quoteBytes (s : string) : string :=
  match s with
  | EmptyString => String dquote EmptyString
  | String c s' => quoteByte c +:+ quoteBytes s'
  end.

(** [strconv.Quote] on the strings whose bytes are all below 0x80. *)
Definition QuoteASCII (s : string) : string := String dquote (quoteBytes s).

(** ** Sample source files *)

Module Sample.
Definition file : string := "demo_test.go".

Definition at_ (l : Z) : Position := mkPosition file l.

(** An identifier the parser resolved to the declaration with handle [o]. *)
Definition var (l : Z) (name : string) (o : Object) : ident :=
  mkIdent (at_ l) name (Some o).
Arguments var l name o%_positive.

(** An identifier the parser left unresolved. *)
Definition free (l : Z) (name : string) : ident :=
  mkIdent (at_ l) name None.

(** The token of an interpreted string literal with the text [s] between
    the quotes. *)
Definition strLit (l : Z) (s : string) : Node :=
  BasicLit (at_ l) STRING (String dquote (s +:+ String dquote EmptyString)).

Definition header : list Node :=
  [ Ident (free 1 "demo");
    GenDecl (at_ 3) IMPORT
      [ Other (at_ 4) [strLit 4 "testing"];
        Other (at_ 5) [strLit 5 "github.com/client9/go-testutil/dataloc"] ] ].

(** [func <name>(t *testing.T) { <body> }] starting at line [l]. *)
Definition testFunc (l : Z) (name : string) (o : Object) (body : list Node)
    : Node :=
  Other (at_ l)
    [ Ident (var l name o);
      Other (at_ l)
        [ FieldList (at_ l)
            [ Field (at_ l) [var l "t" 2]
                (Other (at_ l)
                   [SelectorExpr (at_ l) (Ident (free l "testing"))
                      (free l "T")])
                None ] ];
      Other (at_ l) body ].
Arguments testFunc l name o%_positive body.

(** [t.Log(dataloc.<fn>(<args>))] on line [l]. *)
Definition logCall (l : Z) (fn : string) (args : list Node) : Node :=
  Other (at_ l)
    [ CallExpr (at_ l)
        (SelectorExpr (at_ l) (Ident (var l "t" 2)) (free l "Log"))
        [ CallExpr (at_ l)
            (SelectorExpr (at_ l) (Ident (free l "dataloc")) (free l fn))
            args ] ].

(** [for _, tc := range testcases { <body> }] on line [l]. *)
Definition rangeValue (l : Z) (tc testcases : Object) (body : list Node)
    : Node :=
  RangeStmt (at_ l) (Some (Ident (var l "_" 9))) (Some (Ident (var l "tc" tc)))
    (Ident (var l "testcases" testcases)) (Other (at_ l) body).
Arguments rangeValue l (tc testcases)%_positive body.

(** [tc.name] on line [l]. *)
Definition tcName (l : Z) (tc : Object) : Node :=
  SelectorExpr (at_ l) (Ident (var l "tc" tc)) (free l "name").
Arguments tcName l tc%_positive.

(** [struct{ name string }] on line [l]. *)
Definition nameStruct (l : Z) : Node :=
  StructType (at_ l)
    (FieldList (at_ l)
       [Field (at_ l) [var l "name" 8] (Ident (free l "string")) None]).

(** [{name: "<s>"}] on line [l]. *)
Definition keyed (l : Z) (s : string) : Node :=
  CompositeLit (at_ l) None
    [KeyValueExpr (at_ l) (Ident (free l "name")) (strLit l s)].

(** [[]struct{ name string }{ {name: "a"}, {name: "b"} }], lines 9-12. *)
Definition table : Node :=
  CompositeLit (at_ 9) (Some (ArrayType (at_ 9) None (nameStruct 9)))
    [keyed 10 "a"; keyed 11 "b"].

(** <<
     1 package demo
     3 import (
     4     "testing"
     5     "github.com/client9/go-testutil/dataloc"
     6 )
     8 func TestTable(t *testing.T) {
     9     testcases := []struct{ name string }{
    10         {name: "a"},
    11         {name: "b"},
    12     }
    13     for _, tc := range testcases {
    14         t.Log(dataloc.L(tc.name))
    15     }
    16 }
    >> *)
Definition tableFile : Node :=
  Other (at_ 1)
    (header ++
     [ testFunc 8 "TestTable" 1
         [ AssignStmt (at_ 9) [Ident (var 9 "testcases" 3)] [table];
           rangeValue 13 4 3 [logCall 14 "L" [tcName 14 4]] ] ]).

(** [filepath.Rel] on the two paths the samples use: a file below the
    working directory, and the empty path of a missing stack frame. *)
Definition rel (cwd target : string) : result string :=
  if String.eqb target (cwd +:+ "/" +:+ file) then Ok file
  else Err ("Rel: can't make " +:+ target +:+ " relative to " +:+ cwd).

(** A test binary run in [/work]: the frame at depth [depth] is line
    [line] of [/work/demo_test.go], whose text parses to [f]; no other
    depth is asked for. *)
Definition world (f : Node) (depth line : Z) : World :=
  mkWorld
    (fun step =>
       if step =? depth then ("/work/" +:+ file, line, true)
       else (EmptyString, 0, false))
    (Ok "/work")
    rel
    (fun path => if String.eqb path file then Ok f
                 else Err ("open " +:+ path +:+ ": no such file or directory"))
    [].

(** The same binary when the working directory has been removed. *)
Definition noCwd (f : Node) (depth line : Z) : World :=
  mkWorld (Caller (world f depth line)) (Err "getwd: no such file or directory")
    rel (ParseFile (world f depth line)) [].

(** The table of [tableFile] declared at package level:
    <<
     8 var testcases = []struct{ name string }{
     9     {name: "a"},
    10     {name: "b"},
    11 }
    13 func TestTable(t *testing.T) {
    14     for _, tc := range testcases {
    15         t.Log(dataloc.L(tc.name))
    16     }
    17 }
    >> *)
Definition varTable : Node :=
  CompositeLit (at_ 8) (Some (ArrayType (at_ 8) None (nameStruct 8)))
    [keyed 9 "a"; keyed 10 "b"].

Definition varFile : Node :=
  Other (at_ 1)
    (header ++
     [ GenDecl (at_ 8) VAR
         [ValueSpec (at_ 8) [var 8 "testcases" 3] None [varTable]];
       testFunc 13 "TestTable" 1
         [rangeValue 14 4 3 [logCall 15 "L" [tcName 15 4]]] ]).

(** [struct{ a, b int; name string }] on line [l]. *)
Definition groupedStruct (l : Z) : Node :=
  StructType (at_ l)
    (FieldList (at_ l)
       [ Field (at_ l) [var l "a" 6; var l "b" 7] (Ident (free l "int")) None;
         Field (at_ l) [var l "name" 8] (Ident (free l "string")) None ]).

(** [{<a>, <b>, "<s>"}] on line [l]. *)
Definition positional (l : Z) (a b s : string) : Node :=
  CompositeLit (at_ l) None
    [BasicLit (at_ l) INT a; BasicLit (at_ l) INT b; strLit l s].

(** <<
     8 func TestTable(t *testing.T) {
     9     testcases := []struct{ a, b int; name string }{
    10         {1, 2, "x"},
    11         {3, 4, "y"},
    12     }
    13     for _, tc := range testcases {
    14         t.Log(dataloc.L(tc.name))
    15     }
    16 }
    >> *)
Definition groupedFile : Node :=
  Other (at_ 1)
    (header ++
     [ testFunc 8 "TestTable" 1
         [ AssignStmt (at_ 9) [Ident (var 9 "testcases" 3)]
             [CompositeLit (at_ 9)
                (Some (ArrayType (at_ 9) None (groupedStruct 9)))
                [positional 10 "1" "2" "x"; positional 11 "3" "4" "y"]];
           rangeValue 13 4 3 [logCall 14 "L" [tcName 14 4]] ] ]).

(** A caller of a helper that wraps [dataloc.L3]; on the caller's line
    [dataloc] is a local value with a method [L] without parameters:
    <<
     8 func TestTable(t *testing.T) {
     9     dataloc := stub{}
    10     t.Log(label("a"), dataloc.L())
    11 }
    >> *)
Definition zeroArgFile : Node :=
  Other (at_ 1)
    (header ++
     [ testFunc 8 "TestTable" 1
         [ AssignStmt (at_ 9) [Ident (var 9 "dataloc" 3)]
             [CompositeLit (at_ 9) (Some (Ident (free 9 "stub"))) []];
           Other (at_ 10)
             [ CallExpr (at_ 10)
                 (SelectorExpr (at_ 10) (Ident (var 10 "t" 2)) (free 10 "Log"))
                 [ CallExpr (at_ 10) (Ident (free 10 "label")) [strLit 10 "a"];
                   CallExpr (at_ 10)
                     (SelectorExpr (at_ 10) (Ident (var 10 "dataloc" 3))
                        (free 10 "L"))
                     [] ] ] ] ]).

(** Two tables named [testcases] and two loop variables named [tc], the
    inner ones declared in a nested block:
    <<
     8 func TestTable(t *testing.T) {
     9     testcases := []struct{ name string }{
    10         {name: "a"},
    11     }
    12     for _, tc := range testcases {
    13         t.Log(dataloc.L(tc.name))
    14     }
    15     {
    16         testcases := []struct{ name string }{
    17             {name: "a"},
    18         }
    19         for _, tc := range testcases {
    20             t.Log(dataloc.L(tc.name))
    21         }
    22     }
    23 }
    >> *)
Definition shadowFile : Node :=
  Other (at_ 1)
    (header ++
     [ testFunc 8 "TestTable" 1
         [ AssignStmt (at_ 9) [Ident (var 9 "testcases" 3)]
             [CompositeLit (at_ 9)
                (Some (ArrayType (at_ 9) None (nameStruct 9))) [keyed 10 "a"]];
           rangeValue 12 4 3 [logCall 13 "L" [tcName 13 4]];
           Other (at_ 15)
             [ AssignStmt (at_ 16) [Ident (var 16 "testcases" 13)]
                 [CompositeLit (at_ 16)
                    (Some (ArrayType (at_ 16) None (nameStruct 16)))
                    [keyed 17 "a"]];
               rangeValue 19 14 13 [logCall 20 "L" [tcName 20 14]] ] ] ]).

(** [tableFile] with line 14 calling through another spelling:
    [t.Log(dataloc.L3(tc.name))], and, with the import renamed or dotted,
    [t.Log(dl.L(tc.name))] and [t.Log(L(tc.name))]. *)
Definition spelledFile (call : Node) : Node :=
  Other (at_ 1)
    (header ++
     [ testFunc 8 "TestTable" 1
         [ AssignStmt (at_ 9) [Ident (var 9 "testcases" 3)] [table];
           rangeValue 13 4 3
             [Other (at_ 14)
                [CallExpr (at_ 14)
                   (SelectorExpr (at_ 14) (Ident (var 14 "t" 2)) (free 14 "Log"))
                   [call]]] ] ]).

Definition callL3 : Node :=
  CallExpr (at_ 14)
    (SelectorExpr (at_ 14) (Ident (free 14 "dataloc")) (free 14 "L3"))
    [tcName 14 4].

Definition callRenamed : Node :=
  CallExpr (at_ 14)
    (SelectorExpr (at_ 14) (Ident (free 14 "dl")) (free 14 "L"))
    [tcName 14 4].

Definition callBare : Node :=
  CallExpr (at_ 14) (Ident (free 14 "L")) [tcName 14 4].
(** <<
     8 func TestTable(t *testing.T) {
     9     testcases := map[string]int{
    10         "x": 1,
    11         "y": 2,
    12     }
    13     for name, want := range testcases {
    14         t.Log(dataloc.L(name), want)
    15     }
    16 }
    >> *)
Definition mapEntry (l : Z) (k v : string) : Node :=
  KeyValueExpr (at_ l) (strLit l k) (BasicLit (at_ l) INT v).

Definition mapTable : Node :=
  CompositeLit (at_ 9)
    (Some (MapType (at_ 9) (Ident (free 9 "string")) (Ident (free 9 "int"))))
    [mapEntry 10 "x" "1"; mapEntry 11 "y" "2"].

Definition keyCall : Node :=
  CallExpr (at_ 14)
    (SelectorExpr (at_ 14) (Ident (free 14 "dataloc")) (free 14 "L"))
    [Ident (var 14 "name" 5)].

Definition mapFile : Node :=
  Other (at_ 1)
    (header ++
     [ testFunc 8 "TestTable" 1
         [ AssignStmt (at_ 9) [Ident (var 9 "testcases" 3)] [mapTable];
           RangeStmt (at_ 13) (Some (Ident (var 13 "name" 5)))
             (Some (Ident (var 13 "want" 6)))
             (Ident (var 13 "testcases" 3))
             (Other (at_ 13)
                [Other (at_ 14)
                   [CallExpr (at_ 14)
                      (SelectorExpr (at_ 14) (Ident (var 14 "t" 2))
                         (free 14 "Log"))
                      [keyCall; Ident (var 14 "want" 6)]]]) ] ]).

(** The call [dataloc.L(tc.name)] of line 14 of [tableFile]. *)
Definition selectorCall : Node :=
  CallExpr (at_ 14)
    (SelectorExpr (at_ 14) (Ident (free 14 "dataloc")) (free 14 "L"))
    [tcName 14 4].

(** [tableFile] with the table written [[]testcase{ ... }], the type
    [testcase] being declared in another file of the package. *)
Definition foreignTable : Node :=
  CompositeLit (at_ 9)
    (Some (ArrayType (at_ 9) None (Ident (free 9 "testcase"))))
    [keyed 10 "a"; keyed 11 "b"].

Definition foreignTypeFile : Node :=
  Other (at_ 1)
    (header ++
     [ testFunc 8 "TestTable" 1
         [ AssignStmt (at_ 9) [Ident (var 9 "testcases" 3)] [foreignTable];
           rangeValue 13 4 3 [logCall 14 "L" [tcName 14 4]] ] ]).
(** [foreignTypeFile] with a second call on line 14, written without
    arguments: [t.Log(dataloc.L(tc.name), dataloc.L())]. *)
Definition logThenPanicFile : Node :=
  Other (at_ 1)
    (header ++
     [ testFunc 8 "TestTable" 1
         [ AssignStmt (at_ 9) [Ident (var 9 "testcases" 3)] [foreignTable];
           rangeValue 13 4 3
             [Other (at_ 14)
                [CallExpr (at_ 14)
                   (SelectorExpr (at_ 14) (Ident (var 14 "t" 2)) (free 14 "Log"))
                   [ selectorCall;
                     CallExpr (at_ 14)
                       (SelectorExpr (at_ 14) (Ident (free 14 "dataloc"))
                          (free 14 "L"))
                       [] ]]] ] ]).
End Sample.

(** * Properties *)

(** ** Induction over syntax trees *)

(** A property holds of every node when it is inherited from the children. *)
Lemma Node_children_ind (P : Node -> Prop) :
  (forall n, Forall P (children n) -> P n) -> forall n, P n.
Proof.
  intros step.
  assert (leafP : forall id, P (Ident id)) by (intros id; apply step; constructor).
  assert (leavesP : forall names, Forall P (map Ident names)).
  { intros names; induction names; constructor; auto. }
  fix IH 1.
  assert (listP : forall l : list Node, Forall P l).
  { fix IHl 1. intros [|c l]; constructor; [apply IH | apply IHl]. }
  assert (optP : forall o : option Node, Forall P (optList o)).
  { intros [c|]; simpl; constructor; [apply IH | constructor]. }
  intros n; apply step; destruct n; simpl;
    repeat first
      [ apply leavesP
      | apply optP
      | match goal with |- Forall P ?l => is_var l; apply listP end
      | apply Forall_app; split
      | match goal with |- Forall P [] => constructor end
      | match goal with
        | |- Forall P (Ident _ :: _) => constructor; [apply leafP |]
        | |- Forall P (_ :: _) => constructor; [apply IH |]
        end ].
Qed.

Lemma subnodes_unfold (n : Node) :
  subnodes n = n :: flat_map subnodes (children n).
Proof.
  assert (leaves : forall names,
             flat_map subnodes (map Ident names) = map Ident names).
  { induction names; simpl; congruence. }
  destruct n; simpl; f_equal;
    repeat match goal with o : option Node |- _ => destruct o end;
    simpl; rewrite ?flat_map_app, ?leaves, ?app_nil_r; simpl;
    rewrite ?app_nil_r, <- ?app_assoc; reflexivity.
Qed.

Lemma subnodes_self (n : Node) : In n (subnodes n).
Proof. rewrite subnodes_unfold; left; reflexivity. Qed.

Lemma subnodes_child (n c m : Node) :
  In c (children n) -> In m (subnodes c) -> In m (subnodes n).
Proof.
  intros Hc Hm. rewrite subnodes_unfold. right.
  apply in_flat_map. exists c; auto.
Qed.

(** ** The traversal *)

Section InspectFacts.
Context {S : Type}.
Variable f : Node -> S -> outcome (S * bool).

Lemma Inspect_Ident (id : ident) (s : S) :
  Inspect f (Ident id) s = let* r := f (Ident id) s in Ret (fst r).
Proof. simpl. destruct (f (Ident id) s) as [[s1 []]|]; reflexivity. Qed.

Lemma visit_names (names : list ident) (acc : outcome S) :
  (fix leaves (l : list ident) (s : outcome S) : outcome S :=
     match l with
     | [] => s
     | id :: l' =>
         leaves l' (let* s0 := s in let* r0 := f (Ident id) s0 in Ret (fst r0))
     end) names acc
  = fold_left (fun a c => let* s0 := a in Inspect f c s0) (map Ident names) acc.
Proof.
  revert acc; induction names as [|id names IH]; intros acc; simpl; [reflexivity|].
  rewrite IH. f_equal. destruct acc as [s0|]; simpl; [|reflexivity].
  destruct (f (Ident id) s0) as [[s1 []]|]; reflexivity.
Qed.

(** [Inspect] visits the node, then its children from left to right,
    unless the visitor refuses to descend. *)
Lemma Inspect_unfold (n : Node) (s : S) :
  Inspect f n s =
  let* r := f n s in
  if snd r then visitAll (Inspect f) (children n) (fst r) else Ret (fst r).
Proof.
  unfold visitAll.
  destruct n; simpl; destruct (f _ s) as [[s1 []]|]; simpl; try reflexivity;
    repeat match goal with o : option Node |- _ => destruct o end;
    simpl; rewrite ?fold_left_app, ?visit_names; simpl;
    rewrite ?visit_names; try reflexivity;
    repeat first
      [ reflexivity
      | match goal with
        | |- context [f (Ident ?id) ?s0] =>
            destruct (f (Ident id) s0) as [[? []]|]; simpl
        end
      | match goal with
        | |- context [Inspect f ?c ?s0] => destruct (Inspect f c s0); simpl
        end ].
Qed.

Lemma visitAll_cons (g : Node -> S -> outcome S) c l s :
  visitAll g (c :: l) s =
  match g c s with
  | Ret s1 => visitAll g l s1
  | Panic msg => Panic msg
  end.
Proof.
  unfold visitAll; simpl. destruct (g c s) as [s1|msg]; [reflexivity|].
  induction l; simpl; auto.
Qed.

(** A way to establish a postcondition of a traversal that also shows it
    does not panic: an invariant of the state that every visit of a node
    of the tree keeps. *)
Lemma Inspect_total (P : S -> Prop) (root : Node) :
  (forall m s, In m (subnodes root) -> P s ->
      exists s' d, f m s = Ret (s', d) /\ P s') ->
  forall s, P s -> exists s', Inspect f root s = Ret s' /\ P s'.
Proof.
  induction root as [n IHn] using Node_children_ind; intros Hf s Hs.
  rewrite Inspect_unfold.
  destruct (Hf n s (subnodes_self n) Hs) as (s1 & d & -> & Hs1); simpl.
  destruct d; [|eauto].
  assert (Hsub : forall c, In c (children n) ->
            forall m s, In m (subnodes c) -> P s ->
              exists s' d, f m s = Ret (s', d) /\ P s').
  { intros c Hc m s0 Hm; apply Hf; eapply subnodes_child; eauto. }
  clear Hf Hs s. revert s1 Hs1.
  induction (children n) as [|c l IHl]; intros s1 Hs1.
  - exists s1; split; [reflexivity | assumption].
  - rewrite visitAll_cons. inversion IHn as [|? ? Hc Hl]; subst.
    destruct (Hc (Hsub c (or_introl eq_refl)) s1 Hs1) as (s2 & -> & Hs2).
    apply IHl; auto. intros c' Hc'; apply Hsub; right; exact Hc'.
Qed.
End InspectFacts.

(** ** The index builder *)

Lemma extends_refl W m : extends W m m.
Proof. intros h e H; left; exact H. Qed.

Lemma extends_insert (W : ident -> Node -> Prop) m id e :
  W id e -> extends W m (<[Obj id := e]> m).
Proof.
  intros HW h e' H. destruct (decide (Obj id = h)) as [<-|Hne].
  - rewrite lookup_insert_eq in H. injection H as <-. right; eauto.
  - rewrite lookup_insert_ne in H by exact Hne. left; exact H.
Qed.

Lemma extends_trans W m1 m2 m3 :
  extends W m1 m2 -> extends W m2 m3 -> extends W m1 m3.
Proof.
  intros H12 H23 h e H. destruct (H23 h e H) as [H2|H2]; [auto | right; exact H2].
Qed.

Lemma extends_weaken (W W' : ident -> Node -> Prop) m m' :
  (forall id e, W id e -> W' id e) -> extends W m m' -> extends W' m m'.
Proof.
  intros HW H h e Hl. destruct (H h e Hl) as [?|(id & ? & ?)]; [left | right]; eauto.
Qed.

Lemma index_lt {A : Type} (l : list A) (i : nat) :
  (i < length l)%nat -> exists a, index l i = Ret a /\ l !! i = Some a.
Proof.
  intros Hi. unfold index.
  destruct (lookup_lt_is_Some_2 l i Hi) as [a Ha]. rewrite Ha. eauto.
Qed.

(** The loop over the names of a [var] specification returns, and records
    initializers only under the handles of its names, each with the value
    at the position of the name. *)
Lemma indexValueSpecNames_extends pre names values ix :
  exists m',
    indexValueSpecNames names values (length pre) ix
    = Ret (mkIndex (objToTypeDecl ix) m' (objToRangeExprForValue ix)
             (objToRangeExprForKey ix))
    /\ extends (fun id e => exists j : nat,
                   (pre ++ names) !! j = Some id /\ values !! j = Some e)
         (objToVarInit ix) m'.
Proof.
  revert pre ix. induction names as [|name names IH]; intros pre ix; simpl.
  - exists (objToVarInit ix). destruct ix; split; [reflexivity | apply extends_refl].
  - assert (Hstep : exists m1,
        (if Z.of_nat (length pre) <? len values - 1
         then let* v := index values (length pre) in
              Ret (setVarInit (Obj name) v ix)
         else Ret ix)
        = Ret (mkIndex (objToTypeDecl ix) m1 (objToRangeExprForValue ix)
                 (objToRangeExprForKey ix))
        /\ extends (fun id e => exists j : nat,
                       (pre ++ name :: names) !! j = Some id
                       /\ values !! j = Some e)
             (objToVarInit ix) m1).
    { destruct (Z.of_nat (length pre) <? len values - 1) eqn:Hlt.
      - apply Z.ltb_lt in Hlt. unfold len in Hlt.
        destruct (index_lt values (length pre)) as (v & -> & Hv); [lia|].
        simpl. eexists; split; [reflexivity|].
        apply (extends_insert _ _ name v). exists (length pre). split; [|exact Hv].
        apply list_lookup_middle; reflexivity.
      - exists (objToVarInit ix). destruct ix; split; [reflexivity | apply extends_refl]. }
    destruct Hstep as (m1 & -> & H1). simpl.
    destruct (IH (pre ++ [name])
                (mkIndex (objToTypeDecl ix) m1 (objToRangeExprForValue ix)
                   (objToRangeExprForKey ix))) as (m2 & H2 & E2).
    rewrite length_app, Nat.add_1_r in H2. simpl in H2, E2.
    rewrite <- app_assoc in E2. simpl in E2.
    exists m2; split; [exact H2 | eapply extends_trans; eauto].
Qed.

Lemma indexVarSpecs_extends p specs0 specs ix :
  (forall spec, In spec specs -> In spec specs0) ->
  exists m',
    indexVarSpecs specs ix
    = Ret (mkIndex (objToTypeDecl ix) m' (objToRangeExprForValue ix)
             (objToRangeExprForKey ix))
    /\ extends (initializes (GenDecl p VAR specs0)) (objToVarInit ix) m'.
Proof.
  revert ix. induction specs as [|spec specs IH]; intros ix Hsub; simpl.
  - exists (objToVarInit ix). destruct ix; split; [reflexivity | apply extends_refl].
  - assert (Hstep : exists m1,
        match spec with
        | ValueSpec _ names _ values => indexValueSpecNames names values 0 ix
        | _ => Ret ix
        end
        = Ret (mkIndex (objToTypeDecl ix) m1 (objToRangeExprForValue ix)
                 (objToRangeExprForKey ix))
        /\ extends (initializes (GenDecl p VAR specs0)) (objToVarInit ix) m1).
    { destruct spec;
        try (exists (objToVarInit ix); destruct ix; split;
             [reflexivity | apply extends_refl]).
      destruct (indexValueSpecNames_extends [] Names Values ix) as (m1 & H1 & E1).
      exists m1; split; [exact H1|].
      eapply extends_weaken; [|exact E1].
      intros id e (j & Hn & Hv); simpl in Hn.
      eapply initializes_var; eauto. apply Hsub; left; reflexivity. }
    destruct Hstep as (m1 & -> & E1). simpl.
    destruct (IH (mkIndex (objToTypeDecl ix) m1 (objToRangeExprForValue ix)
                    (objToRangeExprForKey ix))) as (m2 & H2 & E2).
    { intros s Hs; apply Hsub; right; exact Hs. }
    simpl in H2, E2. exists m2; split; [exact H2 | eapply extends_trans; eauto].
Qed.

Lemma indexTypeSpecs_extends p specs0 specs ix :
  (forall spec, In spec specs -> In spec specs0) ->
  exists m',
    indexTypeSpecs specs ix
    = mkIndex m' (objToVarInit ix) (objToRangeExprForValue ix)
        (objToRangeExprForKey ix)
    /\ extends (declaresType (GenDecl p TYPE specs0)) (objToTypeDecl ix) m'.
Proof.
  revert ix. induction specs as [|spec specs IH]; intros ix Hsub; simpl.
  - exists (objToTypeDecl ix). destruct ix; split; [reflexivity | apply extends_refl].
  - assert (Hstep : exists m1,
        match spec with
        | TypeSpec _ name _ ty => setTypeDecl (Obj name) ty ix
        | _ => ix
        end
        = mkIndex m1 (objToVarInit ix) (objToRangeExprForValue ix)
            (objToRangeExprForKey ix)
        /\ extends (declaresType (GenDecl p TYPE specs0)) (objToTypeDecl ix) m1).
    { destruct spec;
        try (exists (objToTypeDecl ix); destruct ix; split;
             [reflexivity | apply extends_refl]).
      eexists; split; [reflexivity|]. apply extends_insert.
      econstructor. apply Hsub; left; reflexivity. }
    destruct Hstep as (m1 & -> & E1).
    destruct (IH (mkIndex m1 (objToVarInit ix) (objToRangeExprForValue ix)
                    (objToRangeExprForKey ix))) as (m2 & H2 & E2).
    { intros s Hs; apply Hsub; right; exact Hs. }
    simpl in H2, E2. exists m2; split; [exact H2 | eapply extends_trans; eauto].
Qed.

Lemma indexAssignLhs_extends p pre rest rhs ix :
  exists m',
    indexAssignLhs (pre ++ rest) rest rhs (length pre) ix
    = Ret (mkIndex (objToTypeDecl ix) m' (objToRangeExprForValue ix)
             (objToRangeExprForKey ix))
    /\ extends (initializes (AssignStmt p (pre ++ rest) rhs)) (objToVarInit ix) m'.
Proof.
  revert pre ix. induction rest as [|expr rest IH]; intros pre ix; simpl.
  - exists (objToVarInit ix). destruct ix; split; [reflexivity | apply extends_refl].
  - set (lhs := pre ++ expr :: rest).
    assert (Hstep : exists m1,
        match expr with
        | Ident id =>
            if len lhs =? len rhs
            then let* v := index rhs (length pre) in
                 Ret (setVarInit (Obj id) v ix)
            else if len rhs =? 1
            then let* v := index rhs 0 in Ret (setVarInit (Obj id) v ix)
            else Ret ix
        | _ => Ret ix
        end
        = Ret (mkIndex (objToTypeDecl ix) m1 (objToRangeExprForValue ix)
                 (objToRangeExprForKey ix))
        /\ extends (initializes (AssignStmt p lhs rhs)) (objToVarInit ix) m1).
    { destruct expr;
        try (exists (objToVarInit ix); destruct ix; split;
             [reflexivity | apply extends_refl]).
      destruct (len lhs =? len rhs) eqn:Hlen.
      - apply Z.eqb_eq in Hlen. unfold len, lhs in Hlen.
        rewrite length_app in Hlen; simpl in Hlen.
        destruct (index_lt rhs (length pre)) as (v & -> & Hv); [lia|].
        simpl. eexists; split; [reflexivity|].
        apply extends_insert. eapply initializes_assign; [|exact Hv].
        apply list_lookup_middle; reflexivity.
      - destruct (len rhs =? 1) eqn:Hone.
        + apply Z.eqb_eq in Hone. unfold len in Hone.
          destruct rhs as [|e [|? ?]]; simpl in Hone; try lia.
          simpl. eexists; split; [reflexivity|].
          apply extends_insert. apply initializes_shared.
          apply in_elt.
        + exists (objToVarInit ix). destruct ix; split;
            [reflexivity | apply extends_refl]. }
    destruct Hstep as (m1 & -> & E1). simpl.
    destruct (IH (pre ++ [expr])
                (mkIndex (objToTypeDecl ix) m1 (objToRangeExprForValue ix)
                   (objToRangeExprForKey ix))) as (m2 & H2 & E2).
    rewrite length_app, Nat.add_1_r in H2. simpl in H2, E2.
    rewrite <- app_assoc in H2, E2. simpl in H2, E2.
    exists m2; split; [exact H2 | eapply extends_trans; eauto].
Qed.

(** The first visitor never panics, always descends, and writes only
    records of the node it visits. *)
Lemma indexVisitor_extends (n : Node) (ix : BindingIndex) :
  exists ix', indexVisitor n ix = Ret (ix', true) /\ indexExtends n ix ix'.
Proof.
  unfold indexExtends.
  destruct n; simpl;
    try (exists ix; repeat split; solve [reflexivity | apply extends_refl]).
  - (* RangeStmt *)
    eexists; split; [reflexivity|].
    destruct Value as [[]|], Key as [[]|]; simpl;
      repeat split;
      solve [apply extends_refl | apply extends_insert; constructor].
  - (* AssignStmt *)
    destruct (indexAssignLhs_extends pos [] Lhs Rhs ix) as (m' & H & E).
    simpl in H, E. rewrite H. simpl. eexists; split; [reflexivity|].
    simpl; repeat split; solve [apply extends_refl | exact E].
  - (* GenDecl *)
    destruct Tok; simpl;
      try (exists ix; repeat split; solve [reflexivity | apply extends_refl]).
    + destruct (indexTypeSpecs_extends pos Specs Specs ix) as (m' & H & E); [auto|].
      rewrite H. eexists; split; [reflexivity|].
      simpl; repeat split; solve [apply extends_refl | exact E].
    + destruct (indexVarSpecs_extends pos Specs Specs ix) as (m' & H & E); [auto|].
      rewrite H. simpl. eexists; split; [reflexivity|].
      simpl; repeat split; solve [apply extends_refl | exact E].
Qed.

(** The index is built without a panic, from records of the tree only. *)
Lemma buildIndex_indexedBy (f : Node) :
  exists ix, buildIndex f = Ret ix /\ indexedBy f ix.
Proof.
  apply (Inspect_total indexVisitor (indexedBy f) f).
  - intros m ix Hm (HT & HV & HRV & HRK).
    destruct (indexVisitor_extends m ix) as (ix' & Hv & ET & EV & ERV & ERK).
    exists ix', true; split; [exact Hv|].
    repeat split;
      (eapply extends_trans; [eassumption|]);
      (eapply extends_weaken; [|eassumption]);
      intros id e HW; exists m; auto.
  - repeat split; apply extends_refl.
Qed.

(** C8. The four maps of the index are keyed by the binding handle
    ([*ast.Object]) and not by the name: whatever record a lookup under a
    handle [h] returns, in any of the four maps, was written by a node of
    the file for an identifier whose handle is [h].  Two identifiers with
    the same name and different handles therefore never see each other's
    records. *)
Theorem C8_records_keyed_by_binding (f : Node) (ix : BindingIndex)
    (h : option Object) (e : Node) :
  buildIndex f = Ret ix ->
  (objToTypeDecl ix !! h = Some e ->
     exists n id, In n (subnodes f) /\ declaresType n id e /\ Obj id = h)
  /\ (objToVarInit ix !! h = Some e ->
     exists n id, In n (subnodes f) /\ initializes n id e /\ Obj id = h)
  /\ (objToRangeExprForValue ix !! h = Some e ->
     exists n id, In n (subnodes f) /\ rangesValue n id e /\ Obj id = h)
  /\ (objToRangeExprForKey ix !! h = Some e ->
     exists n id, In n (subnodes f) /\ rangesKey n id e /\ Obj id = h).
Proof.
  intros Hix.
  destruct (buildIndex_indexedBy f) as (ix0 & Hix0 & HT & HV & HRV & HRK).
  rewrite Hix in Hix0. injection Hix0 as <-.
  repeat split; intros Hl;
    [ destruct (HT h e Hl) as [Hempty|(id & (n & Hn & HW) & Hid)]
    | destruct (HV h e Hl) as [Hempty|(id & (n & Hn & HW) & Hid)]
    | destruct (HRV h e Hl) as [Hempty|(id & (n & Hn & HW) & Hid)]
    | destruct (HRK h e Hl) as [Hempty|(id & (n & Hn & HW) & Hid)] ];
    solve [ rewrite lookup_empty in Hempty; discriminate Hempty
          | exists n, id; auto ].
Qed.

(** In [Sample.shadowFile] the two loop variables are both named [tc]; the
    record found under the handle of the inner one was written by the inner
    loop, and each call of [L] resolves to the table of its own scope. *)
Lemma C8_shadowing_witness :
  (exists n id,
      In n (subnodes Sample.shadowFile)
      /\ rangesValue n id (Ident (Sample.var 19 "testcases" 13))
      /\ Obj id = Some 14%positive)
  /\ fst (L QuoteASCII (Sample.world Sample.shadowFile 2 13) "a")
     = Ret "demo_test.go:10"
  /\ fst (L QuoteASCII (Sample.world Sample.shadowFile 2 20) "a")
     = Ret "demo_test.go:17".
Proof.
  split; [|split; vm_compute; reflexivity].
  refine (proj1 (proj2 (proj2
    (C8_records_keyed_by_binding Sample.shadowFile
       (match buildIndex Sample.shadowFile with
        | Ret ix => ix
        | Panic _ => emptyIndex
        end)
       (Some 14%positive) (Ident (Sample.var 19 "testcases" 13)) _))) _);
    vm_compute; reflexivity.
Defined.

(** C2. A [var] declaration with one name and one initializer leaves the
    index as it was: line 98 asks for [i < len(Values)-1], so the last
    position of a declaration with as many names as values is not
    recorded.  For the table of [Sample.varFile], declared [var testcases =
    ...], the index has no initializer and [L] answers ["(unknown)"]. *)
Theorem C2_var_initializer_not_recorded :
  (forall p p' x ty e ix,
      indexVisitor (GenDecl p VAR [ValueSpec p' [x] ty [e]]) ix = Ret (ix, true))
  /\ omap (fun ix => objToVarInit ix !! Some 3%positive)
       (buildIndex Sample.varFile) = Ret None
  /\ fst (L QuoteASCII (Sample.world Sample.varFile 2 15) "a")
     = Ret "(unknown)".
Proof.
  split; [|split; vm_compute; reflexivity].
  intros p p' x ty e ix. reflexivity.
Qed.

(** C3. For [struct{ a, b int; name string }] the field indexer answers 1
    for [name], the index of its group in [Fields.List], where an unkeyed
    literal has the value of [name] at position 2; the entry [{1, 2, "x"}]
    of [Sample.groupedFile] is therefore not found. *)
Theorem C3_grouped_names_share_index :
  findStructFieldIndex (Sample.groupedStruct 9) "name" = 1
  /\ fieldPosition (Sample.groupedStruct 9) "name" = 2
  /\ fst (L QuoteASCII (Sample.world Sample.groupedFile 2 14) "x")
     = Ret "(unknown)".
Proof. repeat split; vm_compute; reflexivity. Qed.

Lemma findStructFieldIndexFrom_ungrouped (l : list Node) (i : Z) (name : string) :
  Forall (fun fld => exists q id ty tag, fld = Field q [id] ty tag) l ->
  findStructFieldIndexFrom l i name = namePosition (declaredNames l) name i.
Proof.
  intros Hl. revert i. induction Hl as [|fld l (q & id & ty & tag & ->) _ IH];
    intros i; simpl; [reflexivity|].
  destruct (String.eqb (Name id) name); [reflexivity | apply IH].
Qed.

(** Where every field declares one name, the field indexer gives the
    position an unkeyed literal uses. *)
Lemma findStructFieldIndex_ungrouped p p' (l : list Node) (name : string) :
  Forall (fun fld => exists q id ty tag, fld = Field q [id] ty tag) l ->
  findStructFieldIndex (StructType p (FieldList p' l)) name
  = fieldPosition (StructType p (FieldList p' l)) name.
Proof. intros Hl; simpl. apply findStructFieldIndexFrom_ungrouped, Hl. Qed.

(** ** Matching literals *)

Section Matching.
Variable Quote : string -> string.

Lemma Token_eqb_eq (a b : Token) : Token_eqb a b = true <-> a = b.
Proof. destruct a, b; simpl; split; intros H; congruence. Qed.

(** C5. A node matches the sought string exactly when it is a basic
    literal of kind STRING whose token is, byte for byte, the quoted
    rendering of that string; a literal with any other token does not
    match, whatever it evaluates to. *)
Theorem C5_literal_matches_by_token (n : Node) (s : string) :
  (isStringLiteral Quote n s = true <->
   exists p, n = BasicLit p STRING (Quote s))
  /\ (forall p kind token,
        token <> Quote s -> isStringLiteral Quote (BasicLit p kind token) s = false).
Proof.
  split; [split|].
  - destruct n; simpl; try discriminate.
    destruct (Token_eqb Kind STRING) eqn:Hk; simpl; [|discriminate].
    apply Token_eqb_eq in Hk. intros Hv. apply String.eqb_eq in Hv.
    subst. eauto.
  - intros (p & ->). simpl. apply String.eqb_refl.
  - intros p kind token Hne. simpl.
    destruct (Token_eqb kind STRING); simpl; [|reflexivity].
    apply String.eqb_neq, Hne.
Qed.

Lemma testcaseFieldsMatch_existsb t key value (fields : list Node) (i : nat) :
  testcaseFieldsMatch Quote t key value fields (Z.of_nat i)
  = existsb (fun '(j, field) => fieldMatches Quote t key value j field)
      (imap (fun j => pair (i + j)%nat) fields).
Proof.
  revert i. induction fields as [|field fields IH]; intros i; [reflexivity|].
  simpl. rewrite Nat.add_0_r.
  replace (Z.of_nat i + 1) with (Z.of_nat (S i)) by lia. rewrite IH.
  assert (Hhead :
      match field with
      | KeyValueExpr _ k v =>
          match k with
          | Ident id =>
              if String.eqb (Name id) key
              then isStringLiteral Quote v value else false
          | _ => false
          end
      | BasicLit _ _ _ =>
          if findStructFieldIndex t key =? Z.of_nat i
          then isStringLiteral Quote field value else false
      | _ => false
      end = fieldMatches Quote t key value i field).
  { destruct field; try reflexivity; simpl;
      repeat match goal with
             | |- context [match ?k with Ident _ => _ | _ => _ end] =>
                 destruct k; try reflexivity
             | |- context [if ?b then _ else _] => destruct b; try reflexivity
             end. }
  rewrite Hhead. destruct (fieldMatches Quote t key value i field); simpl;
    [reflexivity|].
  f_equal. apply imap_ext. intros j x _. simpl. f_equal. lia.
Qed.

(** The scan of the entries is a search for the first entry, in the order
    of the literal, that is the test case sought. *)
Lemma findInElts_find t key value (elts : list Node) :
  findInElts Quote t key value elts
  = find (entryMatches Quote t key value) elts.
Proof.
  induction elts as [|entry elts IH]; [reflexivity|]. simpl.
  destruct entry; simpl; try exact IH.
  - (* CompositeLit *)
    pose proof (testcaseFieldsMatch_existsb t key value Elts 0) as H.
    change (Z.of_nat 0) with 0 in H. rewrite H.
    change (imap (fun j : nat => pair (0 + j)%nat) Elts) with (imap pair Elts).
    destruct (existsb _ _); [reflexivity | exact IH].
  - (* KeyValueExpr *)
    match goal with
    | |- context [match ?k with BasicLit _ _ _ => _ | _ => _ end] =>
        destruct k; simpl; try exact IH
    end.
    destruct (negb (Token_eqb Kind STRING)); simpl; [exact IH|].
    destruct (String.eqb _ (Quote value)); [reflexivity | exact IH].
Qed.

Lemma findTestCaseItem_sequence p p' len elt elts key value typeDecl t :
  elementType typeDecl elt = Some t ->
  findTestCaseItem Quote
    (Some (CompositeLit p (Some (ArrayType p' len elt)) elts)) key value typeDecl
  = (find (entryMatches Quote t key value) elts, []).
Proof.
  intros Ht. simpl. rewrite <- findInElts_find.
  destruct elt; simpl in Ht; try (injection Ht as <-; reflexivity).
  rewrite Ht. reflexivity.
Qed.

Lemma findTestCaseItem_mapping p p' k v elts key value typeDecl :
  findTestCaseItem Quote
    (Some (CompositeLit p (Some (MapType p' k v)) elts)) key value typeDecl
  = (find (entryMatches Quote (MapType p' k v) key value) elts, []).
Proof. simpl. rewrite <- findInElts_find. reflexivity. Qed.
End Matching.

(** ** Two traversals side by side *)

Section InspectAlike.
Context {S1 S2 : Type}.
Variable f1 : Node -> S1 -> outcome (S1 * bool).
Variable f2 : Node -> S2 -> outcome (S2 * bool).
Variable R : S1 -> S2 -> Prop.

(** Visitors that, from related states, end alike and agree on whether to
    descend, give traversals that end alike. *)
Lemma Inspect_alike (root : Node) :
  (forall m s1 s2, In m (subnodes root) -> R s1 s2 ->
      alike (fun r1 r2 => R (fst r1) (fst r2) /\ snd r1 = snd r2)
        (f1 m s1) (f2 m s2)) ->
  forall s1 s2, R s1 s2 -> alike R (Inspect f1 root s1) (Inspect f2 root s2).
Proof.
  induction root as [n IHn] using Node_children_ind; intros Hf s1 s2 Hs.
  rewrite !Inspect_unfold.
  pose proof (Hf n s1 s2 (subnodes_self n) Hs) as Hn.
  destruct (f1 n s1) as [[a d1]|m1], (f2 n s2) as [[b d2]|m2];
    simpl in Hn |- *; try contradiction; [|exact Hn].
  destruct Hn as [Hab <-]. destruct d1; [|exact Hab].
  assert (Hsub : forall c, In c (children n) ->
            forall m s1 s2, In m (subnodes c) -> R s1 s2 ->
              alike (fun r1 r2 => R (fst r1) (fst r2) /\ snd r1 = snd r2)
                (f1 m s1) (f2 m s2)).
  { intros c Hc m t1 t2 Hm; apply Hf; eapply subnodes_child; eauto. }
  clear Hf Hs s1 s2. revert a b Hab.
  induction (children n) as [|c l IHl]; intros a b Hab; [exact Hab|].
  rewrite !visitAll_cons. inversion IHn as [|? ? Hc Hl]; subst.
  pose proof (Hc (Hsub c (or_introl eq_refl)) a b Hab) as Hcab.
  destruct (Inspect f1 c a) as [a'|], (Inspect f2 c b) as [b'|];
    simpl in Hcab |- *; try contradiction; [|exact Hcab].
  apply IHl; auto. intros c' Hc'; apply Hsub; right; exact Hc'.
Qed.
End InspectAlike.

(** ** A traversal that records its panic *)

Section RunVisitor.
Variable visit : Node -> MatchState -> outcome (MatchState * bool).

Lemma Inspect_panicked (root : Node) st msg :
  Inspect (runVisitor visit) root (mkRun st (Some msg))
  = Ret (mkRun st (Some msg)).
Proof. rewrite Inspect_unfold. reflexivity. Qed.

Lemma visitAll_panicked (l : list Node) st msg :
  visitAll (Inspect (runVisitor visit)) l (mkRun st (Some msg))
  = Ret (mkRun st (Some msg)).
Proof.
  induction l as [|c l IH]; [reflexivity|].
  rewrite visitAll_cons, Inspect_panicked. exact IH.
Qed.

Lemma runVisitor_fresh (n : Node) (st : MatchState) :
  runVisitor visit n (mkRun st None)
  = match visit n st with
    | Ret (s1, descend) => Ret (mkRun s1 None, descend)
    | Panic msg => Ret (mkRun st (Some msg), false)
    end.
Proof. reflexivity. Qed.

Lemma visitAll_runVisitor (l : list Node) :
  Forall (fun c => forall st,
    match Inspect visit c st with
    | Ret st' =>
        Inspect (runVisitor visit) c (mkRun st None) = Ret (mkRun st' None)
    | Panic msg =>
        exists st',
          Inspect (runVisitor visit) c (mkRun st None)
          = Ret (mkRun st' (Some msg))
    end) l ->
  forall st,
    match visitAll (Inspect visit) l st with
    | Ret st' =>
        visitAll (Inspect (runVisitor visit)) l (mkRun st None)
        = Ret (mkRun st' None)
    | Panic msg =>
        exists st',
          visitAll (Inspect (runVisitor visit)) l (mkRun st None)
          = Ret (mkRun st' (Some msg))
    end.
Proof.
  induction l as [|c l IHl]; intros Hl st; [reflexivity|].
  inversion Hl as [|? ? Hc Hl']; subst.
  rewrite !visitAll_cons. specialize (Hc st).
  destruct (Inspect visit c st) as [s2|msg].
  - rewrite Hc. exact (IHl Hl' s2).
  - destruct Hc as (s2 & ->). rewrite visitAll_panicked. eauto.
Qed.

(** The recording traversal returns the state the plain traversal returns,
    and records the panic the plain traversal raises. *)
Lemma Inspect_runVisitor (root : Node) (st : MatchState) :
  match Inspect visit root st with
  | Ret st' =>
      Inspect (runVisitor visit) root (mkRun st None) = Ret (mkRun st' None)
  | Panic msg =>
      exists st',
        Inspect (runVisitor visit) root (mkRun st None)
        = Ret (mkRun st' (Some msg))
  end.
Proof.
  revert st. induction root as [n IHn] using Node_children_ind; intros st.
  rewrite !Inspect_unfold, runVisitor_fresh.
  destruct (visit n st) as [[s1 d]|msg]; simpl; [|eauto].
  destruct d; [|reflexivity].
  exact (visitAll_runVisitor (children n) IHn s1).
Qed.
End RunVisitor.

(** ** The site matcher and [loc] *)

Section Site.
Variable Quote : string -> string.

Lemma isMethodCall_writtenAs (n : Node) (obj fn : string) callee args :
  isMethodCall n obj fn = Some (callee, args) ->
  writtenAs obj fn n /\ exists p, n = CallExpr p callee args.
Proof.
  destruct n; simpl; try discriminate.
  destruct n; simpl; try discriminate.
  destruct n; simpl; try discriminate.
  destruct (String.eqb (Name id) obj) eqn:Ho; simpl; [|discriminate].
  destruct (String.eqb (Name Sel) fn) eqn:Hf; simpl; [|discriminate].
  apply String.eqb_eq in Ho, Hf. intros H; injection H as <- <-.
  split; [|eauto]. unfold writtenAs. do 5 eexists. eauto.
Qed.

Lemma resolveVia_locVar rangeExpr key value ix st :
  let r := resolveVia Quote rangeExpr key value ix st in
  locVar (fst r) = locVar st \/ exists p, locVar (fst r) = formatPos p.
Proof.
  unfold resolveVia. destruct rangeExpr as [[]|]; simpl; auto.
  destruct (findTestCaseItem _ _ _ _ _) as [[nd|] out]; simpl; eauto.
Qed.

(** What the run of [resolveVia] depends on is [loc], not the log. *)
Lemma resolveVia_log rangeExpr key value ix st1 st2 :
  locVar st1 = locVar st2 ->
  locVar (fst (resolveVia Quote rangeExpr key value ix st1))
  = locVar (fst (resolveVia Quote rangeExpr key value ix st2))
  /\ snd (resolveVia Quote rangeExpr key value ix st1)
     = snd (resolveVia Quote rangeExpr key value ix st2).
Proof.
  intros Hst. unfold resolveVia. destruct rangeExpr as [[]|]; simpl; auto.
  destruct (findTestCaseItem _ _ _ _ _) as [[nd|] out]; simpl; auto.
Qed.

(** A node off the caller's line, or not written [dataloc.L(...)], is
    passed over. *)
Lemma matchVisitor_skip line value ix n st :
  Line (nodePos n) <> line \/ ~ writtenAs "dataloc" "L" n ->
  matchVisitor Quote line value ix n st = Ret (st, true).
Proof.
  intros H. unfold matchVisitor.
  destruct (Line (nodePos n) =? line) eqn:Hline; simpl; [|reflexivity].
  apply Z.eqb_eq in Hline. destruct H as [H|H]; [contradiction|].
  destruct (isMethodCall n "dataloc" "L") as [[callee args]|] eqn:Hcall;
    [|reflexivity].
  apply isMethodCall_writtenAs in Hcall. destruct Hcall; contradiction.
Qed.



(** Two visits from states with the same [loc] end alike, with the same
    [loc], whatever has been logged. *)
Lemma matchVisitor_log line value ix n st1 st2 :
  locVar st1 = locVar st2 ->
  alike (fun r1 r2 => locVar (fst r1) = locVar (fst r2) /\ snd r1 = snd r2)
    (matchVisitor Quote line value ix n st1)
    (matchVisitor Quote line value ix n st2).
Proof.
  intros Hst. unfold matchVisitor.
  destruct (negb (Line (nodePos n) =? line)); simpl; [auto|].
  destruct (isMethodCall n "dataloc" "L") as [[callee args]|]; simpl; [|auto].
  destruct (index args 0) as [arg|msg]; simpl; [|reflexivity].
  destruct (isSelector arg) as [[id key]|]; simpl.
  - apply resolveVia_log, Hst.
  - destruct arg; simpl; auto. apply resolveVia_log, Hst.
Qed.

Lemma loc_resolve_err w value step e :
  resolveCaller w step = Err e ->
  fst (loc Quote w value step) = Ret (EmptyString, Some e).
Proof.
  unfold resolveCaller, loc.
  destruct (Caller w step) as [[file line] ok].
  destruct (Getwd w) as [cwd|]; [|intros [= ->]; reflexivity].
  destruct (Rel w cwd file) as [file'|]; [|intros [= ->]; reflexivity].
  destruct (ParseFile w file') as [f|]; [discriminate|].
  intros [= ->]; reflexivity.
Qed.

Lemma loc_resolve_ok w value step f line :
  resolveCaller w step = Ok (f, line) ->
  exists ix log1,
    buildIndex f = Ret ix
    /\ fst (loc Quote w value step)
       = omap (fun st => (locVar st, None))
           (Inspect (matchVisitor Quote line value ix) f
              (mkMatch "(unknown)" (Log w ++ log1))).
Proof.
  unfold resolveCaller, loc.
  destruct (Caller w step) as [[file line0] ok].
  destruct (Getwd w) as [cwd|]; [|discriminate].
  destruct (Rel w cwd file) as [file'|]; [|discriminate].
  destruct (ParseFile w file') as [f0|]; [|discriminate].
  intros [= -> ->].
  destruct (buildIndex_indexedBy f) as (ix & Hix & _). rewrite Hix.
  exists ix, [callerLine step file line]. split; [reflexivity|].
  pose proof (Inspect_runVisitor (matchVisitor Quote line value ix) f
                (mkMatch "(unknown)" (Log w ++ [callerLine step file line])))
    as Hrun.
  destruct (Inspect (matchVisitor Quote line value ix) f _) as [st|msg].
  - rewrite Hrun. reflexivity.
  - destruct Hrun as (st & ->). reflexivity.
Qed.

(** A call of [loc] changes nothing of the world but the log. *)
Lemma loc_world w value step :
  exists l, snd (loc Quote w value step) = withLog w l.
Proof.
  unfold loc. destruct (Caller w step) as [[file line] ok].
  destruct (Getwd w) as [cwd|]; [|eauto].
  destruct (Rel w cwd file) as [file'|]; [|eauto].
  destruct (ParseFile w file') as [f|]; [|eauto].
  destruct (buildIndex f) as [ix|]; [|eauto].
  destruct (Inspect _ f _) as [run|]; [|eauto].
  destruct (panicked run); eauto.
Qed.

Lemma resolveCaller_withLog w l step :
  resolveCaller (withLog w l) step = resolveCaller w step.
Proof. reflexivity. Qed.

(** The result of [loc] does not depend on what has been logged. *)
Lemma loc_log w l value step :
  fst (loc Quote (withLog w l) value step) = fst (loc Quote w value step).
Proof.
  destruct (resolveCaller w step) as [[f line]|e] eqn:Hres.
  - destruct (loc_resolve_ok w value step f line Hres)
      as (ix & log1 & Hix & ->).
    rewrite <- (resolveCaller_withLog w l) in Hres.
    destruct (loc_resolve_ok (withLog w l) value step f line Hres)
      as (ix' & log2 & Hix' & ->).
    rewrite Hix in Hix'. injection Hix' as <-.
    pose proof (Inspect_alike
      (matchVisitor Quote line value ix) (matchVisitor Quote line value ix)
      (fun st1 st2 => locVar st1 = locVar st2) f
      (fun m st1 st2 _ => matchVisitor_log line value ix m st1 st2)
      (mkMatch "(unknown)" (Log (withLog w l) ++ log2))
      (mkMatch "(unknown)" (Log w ++ log1)) eq_refl) as H.
    destruct (Inspect _ f _), (Inspect _ f _); simpl in H |- *;
      try contradiction; congruence.
  - rewrite (loc_resolve_err w value step e Hres).
    rewrite <- (resolveCaller_withLog w l) in Hres.
    apply loc_resolve_err, Hres.
Qed.

Lemma entryPoints_loc step entry w name :
  In (step, entry) (entryPoints Quote) ->
  entry w name
  = (omap fst (fst (loc Quote w name step)), snd (loc Quote w name step)).
Proof.
  unfold entryPoints. simpl.
  intros [H|[H|[H|[H|[H|[]]]]]]; injection H as <- <-;
    [unfold L | unfold L3 | unfold L4 | unfold L5 | unfold L6];
    destruct (loc Quote w name _); reflexivity.
Qed.
End Site.

(** ** The public boundary *)

Lemma formatPos_nonempty (p : Position) : formatPos p <> EmptyString.
Proof. unfold formatPos. destruct (Filename p); discriminate. Qed.







(** C7, as the code has it.  When [os.Getwd] fails, or [filepath.Rel]
    fails on the file name [runtime.Caller] reported (the empty name when
    the depth exceeds the stack: [loc] does not look at the flag of
    [runtime.Caller]), [loc] returns the empty string with that error, and
    the entry point of that depth returns the empty string. *)
Theorem C7_resolver_errors_reach_wrappers (Quote : string -> string)
    (w : World) (name : string) (step : Z) (e : Error) :
  Getwd w = Err e
  \/ (exists cwd, Getwd w = Ok cwd
                  /\ Rel w cwd (fst (fst (Caller w step))) = Err e) ->
  fst (loc Quote w name step) = Ret (EmptyString, Some e)
  /\ forall entry, In (step, entry) (entryPoints Quote) ->
       fst (entry w name) = Ret EmptyString.
Proof.
  intros H.
  assert (Hres : resolveCaller w step = Err e).
  { unfold resolveCaller. destruct (Caller w step) as [[file line] ok].
    simpl in H. destruct H as [->|(cwd & -> & ->)]; reflexivity. }
  split.
  - apply loc_resolve_err, Hres.
  - intros entry Hentry. rewrite (entryPoints_loc Quote step entry w name Hentry).
    simpl. rewrite (loc_resolve_err Quote w name step e Hres). reflexivity.
Qed.

(** The working directory is gone; and, in a world with a frame at depth
    2 only, [L3] asks for a frame that does not exist. *)
Lemma C7_resolver_errors_witness :
  (fst (loc QuoteASCII (Sample.noCwd Sample.tableFile 2 14) "a" 2)
   = Ret (EmptyString, Some "getwd: no such file or directory")
   /\ forall entry, In (2, entry) (entryPoints QuoteASCII) ->
        fst (entry (Sample.noCwd Sample.tableFile 2 14) "a") = Ret EmptyString)
  /\ (fst (loc QuoteASCII (Sample.world Sample.tableFile 2 14) "a" 3)
      = Ret (EmptyString, Some "Rel: can't make  relative to /work")
      /\ forall entry, In (3, entry) (entryPoints QuoteASCII) ->
           fst (entry (Sample.world Sample.tableFile 2 14) "a")
           = Ret EmptyString).
Proof.
  split.
  - exact (C7_resolver_errors_reach_wrappers QuoteASCII
             (Sample.noCwd Sample.tableFile 2 14) "a" 2 _
             (or_introl eq_refl)).
  - exact (C7_resolver_errors_reach_wrappers QuoteASCII
             (Sample.world Sample.tableFile 2 14) "a" 3 _
             (or_intror (ex_intro _ "/work"%string (conj eq_refl eq_refl)))).
Defined.

(** C7 as stated fails in its last part: with the working directory gone
    [loc] returns the error, and [L] turns it into the empty string, not
    into ["unknown"]. *)
Lemma C7_wrapper_counterexample :
  fst (loc QuoteASCII (Sample.noCwd Sample.tableFile 2 14) "a" 2)
  = Ret (EmptyString, Some "getwd: no such file or directory")
  /\ fst (L QuoteASCII (Sample.noCwd Sample.tableFile 2 14) "a")
     = Ret EmptyString
  /\ fst (L QuoteASCII (Sample.noCwd Sample.tableFile 2 14) "a")
     <> Ret "unknown".
Proof. repeat split; vm_compute; solve [reflexivity | discriminate]. Qed.

Lemma writtenAs_iff (obj fn : string) (n : Node) :
  writtenAs obj fn n <-> isWrittenAs obj fn n = true.
Proof.
  split.
  - intros (p & p' & id & sel & args & -> & <- & <-). simpl.
    rewrite !String.eqb_refl. reflexivity.
  - destruct n; simpl; try discriminate.
    destruct n; simpl; try discriminate.
    destruct n; simpl; try discriminate.
    intros H. apply andb_true_iff in H. destruct H as [Ho Hf].
    apply String.eqb_eq in Ho, Hf. unfold writtenAs. do 5 eexists. eauto.
Qed.

Lemma noCallSite_spec (line : Z) (f : Node) :
  noCallSite line f = true ->
  forall m, In m (subnodes f) -> Line (nodePos m) = line ->
    ~ writtenAs "dataloc" "L" m.
Proof.
  unfold noCallSite. rewrite forallb_forall. intros H m Hm Hline Hw.
  specialize (H m Hm). apply writtenAs_iff in Hw.
  rewrite Hw, Hline, Z.eqb_refl in H. discriminate H.
Qed.

(** C10. When no node that starts on the caller's line is a call whose
    callee is written [dataloc.L], [loc] returns its sentinel
    ["(unknown)"], and so does the entry point of that depth, [L3] to [L6]
    included. *)
Theorem C10_only_dataloc_L_is_recognized (Quote : string -> string)
    (w : World) (name : string) (step : Z) (f : Node) (line : Z) :
  resolveCaller w step = Ok (f, line) ->
  (forall m, In m (subnodes f) -> Line (nodePos m) = line ->
     ~ writtenAs "dataloc" "L" m) ->
  fst (loc Quote w name step) = Ret ("(unknown)", None)
  /\ forall entry, In (step, entry) (entryPoints Quote) ->
       fst (entry w name) = Ret "(unknown)".
Proof.
  intros Hres Hsite.
  assert (Hloc : fst (loc Quote w name step) = Ret ("(unknown)", None)).
  { destruct (loc_resolve_ok Quote w name step f line Hres)
      as (ix & log1 & _ & ->).
    destruct (Inspect_total (matchVisitor Quote line name ix)
                (fun st => locVar st = "(unknown)") f)
      with (s := mkMatch "(unknown)" (Log w ++ log1))
      as (st & -> & Hst).
    - intros m st Hm Hst. exists st, true. split; [|exact Hst].
      apply matchVisitor_skip.
      destruct (Z.eq_dec (Line (nodePos m)) line) as [Hline|Hline];
        [right; exact (Hsite m Hm Hline) | left; exact Hline].
    - reflexivity.
    - simpl. rewrite Hst. reflexivity. }
  split; [exact Hloc|].
  intros entry Hentry. rewrite (entryPoints_loc Quote step entry w name Hentry).
  simpl. rewrite Hloc. reflexivity.
Qed.

(** Line 14 of the sample calls [dataloc.L3(tc.name)], seen from [L] and
    from [L3]; or [dl.L(tc.name)]; or [L(tc.name)]: the key ["a"] of the
    table is not located. *)
Lemma C10_other_spellings_witness :
  fst (L QuoteASCII (Sample.world (Sample.spelledFile Sample.callL3) 2 14) "a")
  = Ret "(unknown)"
  /\ fst (L3 QuoteASCII (Sample.world (Sample.spelledFile Sample.callL3) 3 14) "a")
     = Ret "(unknown)"
  /\ fst (L QuoteASCII
            (Sample.world (Sample.spelledFile Sample.callRenamed) 2 14) "a")
     = Ret "(unknown)"
  /\ fst (L QuoteASCII (Sample.world (Sample.spelledFile Sample.callBare) 2 14) "a")
     = Ret "(unknown)".
Proof.
  split; [|split; [|split]].
  - refine (proj2 (C10_only_dataloc_L_is_recognized QuoteASCII
      (Sample.world (Sample.spelledFile Sample.callL3) 2 14) "a" 2
      (Sample.spelledFile Sample.callL3) 14 eq_refl
      (noCallSite_spec 14 (Sample.spelledFile Sample.callL3) eq_refl)) (L QuoteASCII) _).
    left; reflexivity.
  - refine (proj2 (C10_only_dataloc_L_is_recognized QuoteASCII
      (Sample.world (Sample.spelledFile Sample.callL3) 3 14) "a" 3
      (Sample.spelledFile Sample.callL3) 14 eq_refl
      (noCallSite_spec 14 (Sample.spelledFile Sample.callL3) eq_refl)) (L3 QuoteASCII) _).
    right; left; reflexivity.
  - refine (proj2 (C10_only_dataloc_L_is_recognized QuoteASCII
      (Sample.world (Sample.spelledFile Sample.callRenamed) 2 14) "a" 2
      (Sample.spelledFile Sample.callRenamed) 14 eq_refl
      (noCallSite_spec 14 (Sample.spelledFile Sample.callRenamed) eq_refl)) (L QuoteASCII) _).
    left; reflexivity.
  - refine (proj2 (C10_only_dataloc_L_is_recognized QuoteASCII
      (Sample.world (Sample.spelledFile Sample.callBare) 2 14) "a" 2
      (Sample.spelledFile Sample.callBare) 14 eq_refl
      (noCallSite_spec 14 (Sample.spelledFile Sample.callBare) eq_refl)) (L QuoteASCII) _).
    left; reflexivity.
Defined.

(** C9. A second call of [loc] with the same key and depth, in the world
    the first call left (the same stack, working directory and files; a
    longer log), returns what the first returned, or panics as the first
    did; the same holds of every entry point. *)
Theorem C9_repeated_calls_agree (Quote : string -> string) (w : World)
    (key : string) (step : Z) :
  fst (loc Quote (snd (loc Quote w key step)) key step)
  = fst (loc Quote w key step)
  /\ forall entry, In (step, entry) (entryPoints Quote) ->
       fst (entry (snd (entry w key)) key) = fst (entry w key).
Proof.
  assert (Hloc : fst (loc Quote (snd (loc Quote w key step)) key step)
                 = fst (loc Quote w key step)).
  { destruct (loc_world Quote w key step) as (l & ->). apply loc_log. }
  split; [exact Hloc|].
  intros entry Hentry.
  rewrite !(entryPoints_loc Quote step entry _ key Hentry). simpl.
  rewrite Hloc. reflexivity.
Qed.

(** In the sample world a second call of [L] for the key ["b"] answers as
    the first did. *)
Lemma C9_repeated_calls_witness :
  fst (L QuoteASCII
         (snd (L QuoteASCII (Sample.world Sample.tableFile 2 14) "b")) "b")
  = fst (L QuoteASCII (Sample.world Sample.tableFile 2 14) "b").
Proof.
  exact (proj2 (C9_repeated_calls_agree QuoteASCII
                  (Sample.world Sample.tableFile 2 14) "b" 2)
           (L QuoteASCII) (or_introl eq_refl)).
Defined.

(** The matcher takes [call.Args[0]] of every call written [dataloc.L] on
    the caller's line; without arguments the index is out of range. *)
Lemma matchVisitor_no_argument (Quote : string -> string) line value ix
    p p' id sel st :
  Line p = line -> Name id = "dataloc" -> Name sel = "L" ->
  matchVisitor Quote line value ix
    (CallExpr p (SelectorExpr p' (Ident id) sel) []) st
  = Panic "index out of range".
Proof.
  intros Hline Hid Hsel. unfold matchVisitor. simpl.
  rewrite Hline, Z.eqb_refl, Hid, Hsel. reflexivity.
Qed.

(** C6. In [Sample.zeroArgFile] the caller of the helper around [L3] has
    the call [dataloc.L()] on its line; [L3] panics there instead of
    returning. *)
Theorem C6_zero_argument_call_panics :
  fst (L3 QuoteASCII (Sample.world Sample.zeroArgFile 3 10) "a")
  = Panic "index out of range".
Proof. vm_compute. reflexivity. Qed.

(** C4, as the code has it.  The entries of a sequence literal are
    searched in the order of the literal and the first entry that matches
    is returned; for the table [{name: "a"}, {name: "b"}] of
    [Sample.tableFile] the key ["a"] yields the position of the first
    entry, ["b"] that of the second, and a key of no entry yields
    ["(unknown)"]. *)
Theorem C4_first_matching_entry :
  (forall (Quote : string -> string) p p' len elt elts key value typeDecl t,
      elementType typeDecl elt = Some t ->
      findTestCaseItem Quote
        (Some (CompositeLit p (Some (ArrayType p' len elt)) elts))
        key value typeDecl
      = (find (entryMatches Quote t key value) elts, []))
  /\ fst (L QuoteASCII (Sample.world Sample.tableFile 2 14) "a")
     = Ret (formatPos (nodePos (Sample.keyed 10 "a")))
  /\ fst (L QuoteASCII (Sample.world Sample.tableFile 2 14) "b")
     = Ret (formatPos (nodePos (Sample.keyed 11 "b")))
  /\ fst (L QuoteASCII (Sample.world Sample.tableFile 2 14) "missing")
     = Ret "(unknown)".
Proof.
  split; [|repeat split; vm_compute; reflexivity].
  intros Quote p p' len elt elts key value typeDecl t.
  apply findTestCaseItem_sequence.
Qed.

(** The table of [Sample.tableFile]: the search for ["b"] passes the
    entry of line 10 and returns the entry of line 11. *)
Lemma C4_first_matching_entry_witness :
  findTestCaseItem QuoteASCII (Some Sample.table) "name" "b" ∅
  = (Some (Sample.keyed 11 "b"), []).
Proof.
  exact (proj1 C4_first_matching_entry QuoteASCII (Sample.at_ 9) (Sample.at_ 9)
           None (Sample.nameStruct 9) [Sample.keyed 10 "a"; Sample.keyed 11 "b"]
           "name" "b" ∅ (Sample.nameStruct 9) eq_refl).
Defined.

(** C4 as stated fails in its last part: the key of no entry does not
    yield the string ["unknown"]. *)
Lemma C4_sentinel_counterexample :
  fst (L QuoteASCII (Sample.world Sample.tableFile 2 14) "missing")
  <> Ret "unknown".
Proof. vm_compute. discriminate. Qed.

(** The token [`a`] and the token ["\x61"] both denote the string [a];
    neither matches the key [a], whose quoted rendering is ["a"]. *)
Lemma C5_literal_tokens_witness :
  isStringLiteral QuoteASCII (Sample.strLit 10 "a") "a" = true
  /\ isStringLiteral QuoteASCII (BasicLit (Sample.at_ 10) STRING "`a`") "a"
     = false
  /\ isStringLiteral QuoteASCII (Sample.strLit 10 "\x61") "a" = false.
Proof.
  split; [|split].
  - apply (proj1 (C5_literal_matches_by_token QuoteASCII _ "a")).
    exists (Sample.at_ 10). reflexivity.
  - apply (proj2 (C5_literal_matches_by_token QuoteASCII
                    (Sample.strLit 10 "a") "a")).
    vm_compute. discriminate.
  - apply (proj2 (C5_literal_matches_by_token QuoteASCII
                    (Sample.strLit 10 "a") "a")).
    vm_compute. discriminate.
Defined.

(** * Further properties *)

(** ** Records and lookups *)

Lemma recordAll_app (r1 r2 : list (ident * Node)) m :
  recordAll (r1 ++ r2) m = recordAll r2 (recordAll r1 m).
Proof. unfold recordAll. apply fold_left_app. Qed.

(** Records for other handles leave the lookup as it was. *)
Lemma recordAll_frame (records : list (ident * Node)) m (h : option Object) :
  (forall r, In r records -> Obj (fst r) <> h) ->
  recordAll records m !! h = m !! h.
Proof.
  revert m. induction records as [|r records IH]; intros m Hr; [reflexivity|].
  simpl. rewrite IH by (intros r' Hr'; apply Hr; right; exact Hr').
  apply lookup_insert_ne. apply Hr; left; reflexivity.
Qed.

(** When the records for a handle agree on the expression, and there is
    one, that expression is what the lookup gives. *)
Lemma recordAll_agreed (records : list (ident * Node)) m (h : option Object)
    (e : Node) :
  (forall r, In r records -> Obj (fst r) = h -> snd r = e) ->
  (m !! h = Some e \/ exists r, In r records /\ Obj (fst r) = h) ->
  recordAll records m !! h = Some e.
Proof.
  revert m. induction records as [|r records IH]; intros m Hall Hex.
  - destruct Hex as [Hm|(r & [] & _)]. exact Hm.
  - simpl. apply IH; [intros r' Hr'; apply Hall; right; exact Hr'|].
    destruct (decide (Obj (fst r) = h)) as [Hh|Hh].
    + left. rewrite <- Hh, lookup_insert_eq. f_equal.
      apply Hall; [left; reflexivity | exact Hh].
    + destruct Hex as [Hm|(r' & [<-|Hr'] & Hh')].
      * left. rewrite lookup_insert_ne by exact Hh. exact Hm.
      * contradiction.
      * right. exists r'; auto.
Qed.

(** A lookup in a map built from records alone misses exactly when no
    record is for the handle. *)
Lemma recordAll_None (records : list (ident * Node)) (h : option Object) :
  recordAll records ∅ !! h = None <->
  forall r, In r records -> Obj (fst r) <> h.
Proof.
  split.
  - intros Hnone r Hr Hh.
    assert (Hgen : forall m, is_Some (recordAll records m !! h)).
    { clear Hnone. revert r Hr Hh.
      induction records as [|r0 records IH]; intros r Hr Hh m; [destruct Hr|].
      simpl. destruct Hr as [->|Hr]; [|eapply IH; eauto].
      clear IH. revert m.
      assert (Hkeep : forall rs m0, is_Some (m0 !! h) ->
                is_Some (recordAll rs m0 !! h)).
      { induction rs as [|r1 rs IHrs]; intros m0 Hm0; [exact Hm0|].
        simpl. apply IHrs. destruct (decide (Obj (fst r1) = h)) as [<-|Hne].
        - rewrite lookup_insert_eq. eauto.
        - rewrite lookup_insert_ne by exact Hne. exact Hm0. }
      intros m. apply Hkeep. rewrite <- Hh, lookup_insert_eq. eauto. }
    destruct (Hgen ∅) as [x Hx]. congruence.
  - intros Hr. rewrite recordAll_frame by exact Hr. apply lookup_empty.
Qed.

Lemma pairIdents_In (lhs rhs : list Node) (id : ident) (e : Node) :
  In (id, e) (pairIdents lhs rhs) <->
  exists i : nat, lhs !! i = Some (Ident id) /\ rhs !! i = Some e.
Proof.
  revert rhs. induction lhs as [|l lhs IH]; intros rhs.
  - simpl. split; [intros [] | intros (i & Hi & _); discriminate Hi].
  - destruct rhs as [|r rhs].
    + simpl. split; [intros [] | intros (i & _ & Hi); discriminate Hi].
    + assert (Htail : In (id, e) (pairIdents lhs rhs) <->
                exists i : nat, (l :: lhs) !! S i = Some (Ident id)
                                /\ (r :: rhs) !! S i = Some e)
        by (rewrite IH; reflexivity).
      assert (Hsplit : (exists i : nat, (l :: lhs) !! i = Some (Ident id)
                                        /\ (r :: rhs) !! i = Some e) <->
                (l = Ident id /\ r = e)
                \/ exists i : nat, (l :: lhs) !! S i = Some (Ident id)
                                   /\ (r :: rhs) !! S i = Some e).
      { split.
        - intros ([|i] & Hl & Hr); [left | right; eauto].
          simpl in Hl, Hr. split; congruence.
        - intros [[-> ->]|(i & H)]; [exists 0%nat; auto | eauto]. }
      rewrite Hsplit, <- Htail.
      destruct l; simpl; try (split; [auto | intros [[H _]|H]; [discriminate H | exact H]]).
      split.
      * intros [H|H]; [left; injection H as -> ->; auto | right; exact H].
      * intros [[H ->]|H]; [left; injection H as ->; reflexivity | right; exact H].
Qed.

Lemma shareIdents_In (lhs : list Node) (e e' : Node) (id : ident) :
  In (id, e') (shareIdents lhs e) <-> In (Ident id) lhs /\ e' = e.
Proof.
  induction lhs as [|l lhs IH]; simpl; [tauto|].
  destruct l; simpl; rewrite ?IH;
    try (split; [intros [H ->]; auto | intros [[H|H] ->]; [discriminate H | auto]]).
  split.
  - intros [H|[H ->]]; [injection H as -> ->; auto | auto].
  - intros [[H|H] ->]; [left; injection H as ->; reflexivity | right; auto].
Qed.

(** ** The index builder, exactly *)

Lemma indexValueSpecNames_records names values (i : nat) ix :
  indexValueSpecNames names values i ix
  = Ret (mkIndex (objToTypeDecl ix)
           (recordAll (combine names (drop i (take (length values - 1) values)))
              (objToVarInit ix))
           (objToRangeExprForValue ix) (objToRangeExprForKey ix)).
Proof.
  revert i ix. induction names as [|name names IH]; intros i ix; simpl.
  - destruct ix; reflexivity.
  - destruct (Z.of_nat i <? len values - 1) eqn:Hlt.
    + apply Z.ltb_lt in Hlt. unfold len in Hlt.
      destruct (index_lt values i) as (v & -> & Hv); [lia|]. simpl.
      assert (Hv' : take (length values - 1) values !! i = Some v).
      { rewrite lookup_take. destruct (decide (i < length values - 1)%nat);
          [exact Hv | lia]. }
      rewrite (drop_S _ _ _ Hv'). simpl. rewrite IH. reflexivity.
    + apply Z.ltb_ge in Hlt. unfold len in Hlt.
      simpl. rewrite IH. simpl.
      rewrite !drop_ge by (rewrite length_take; lia).
      destruct names; destruct ix; reflexivity.
Qed.

Lemma indexVarSpecs_records specs ix :
  indexVarSpecs specs ix
  = Ret (mkIndex (objToTypeDecl ix)
           (recordAll (varDeclRecords specs) (objToVarInit ix))
           (objToRangeExprForValue ix) (objToRangeExprForKey ix)).
Proof.
  revert ix. induction specs as [|spec specs IH]; intros ix; simpl.
  - destruct ix; reflexivity.
  - destruct spec; simpl; rewrite ?IH; try reflexivity.
    rewrite indexValueSpecNames_records. simpl. rewrite IH. simpl.
    rewrite recordAll_app. reflexivity.
Qed.

Lemma indexTypeSpecs_records specs ix :
  indexTypeSpecs specs ix
  = mkIndex (recordAll (typeSpecRecords specs) (objToTypeDecl ix))
      (objToVarInit ix) (objToRangeExprForValue ix) (objToRangeExprForKey ix).
Proof.
  revert ix. induction specs as [|spec specs IH]; intros ix; simpl.
  - destruct ix; reflexivity.
  - destruct spec; simpl; rewrite IH; try reflexivity.
Qed.

Lemma indexAssignLhs_paired lhs rest rhs (i : nat) ix :
  len lhs = len rhs -> (i + length rest = length rhs)%nat ->
  indexAssignLhs lhs rest rhs i ix
  = Ret (mkIndex (objToTypeDecl ix)
           (recordAll (pairIdents rest (drop i rhs)) (objToVarInit ix))
           (objToRangeExprForValue ix) (objToRangeExprForKey ix)).
Proof.
  intros Hlen. revert i ix. induction rest as [|expr rest IH]; intros i ix Hi; simpl.
  - destruct ix; reflexivity.
  - simpl in Hi. destruct (index_lt rhs i) as (v & Hix & Hv); [lia|].
    rewrite (drop_S _ _ _ Hv).
    apply Z.eqb_eq in Hlen.
    destruct expr; simpl; rewrite ?Hlen, ?Hix; simpl;
      rewrite IH by lia; reflexivity.
Qed.

Lemma indexAssignLhs_shared lhs rest e (i : nat) ix :
  len lhs <> 1 ->
  indexAssignLhs lhs rest [e] i ix
  = Ret (mkIndex (objToTypeDecl ix)
           (recordAll (shareIdents rest e) (objToVarInit ix))
           (objToRangeExprForValue ix) (objToRangeExprForKey ix)).
Proof.
  intros Hlen. revert i ix. induction rest as [|expr rest IH]; intros i ix; simpl.
  - destruct ix; reflexivity.
  - apply Z.eqb_neq in Hlen. change (len [e]) with 1.
    destruct expr; simpl; rewrite ?Hlen; simpl; rewrite IH; reflexivity.
Qed.

Lemma indexAssignLhs_ignored lhs rest rhs (i : nat) ix :
  len lhs <> len rhs -> len rhs <> 1 ->
  indexAssignLhs lhs rest rhs i ix = Ret ix.
Proof.
  intros Hlen Hone. revert i. induction rest as [|expr rest IH]; intros i; simpl;
    [reflexivity|].
  apply Z.eqb_neq in Hlen, Hone.
  destruct expr; simpl; rewrite ?Hlen, ?Hone; simpl; apply IH.
Qed.

Lemma indexAssignLhs_records lhs rhs ix :
  indexAssignLhs lhs lhs rhs 0 ix
  = Ret (mkIndex (objToTypeDecl ix)
           (recordAll (assignRecords lhs rhs) (objToVarInit ix))
           (objToRangeExprForValue ix) (objToRangeExprForKey ix)).
Proof.
  unfold assignRecords.
  destruct (length lhs =? length rhs)%nat eqn:Hlen.
  - apply Nat.eqb_eq in Hlen.
    rewrite (indexAssignLhs_paired lhs lhs rhs 0 ix);
      [reflexivity | unfold len; congruence | exact Hlen].
  - apply Nat.eqb_neq in Hlen.
    assert (Hne : len lhs <> len rhs) by (unfold len; lia).
    destruct rhs as [|e [|e' rhs]].
    + rewrite indexAssignLhs_ignored; [destruct ix; reflexivity | exact Hne |].
      unfold len; simpl; lia.
    + apply indexAssignLhs_shared. exact Hne.
    + rewrite indexAssignLhs_ignored; [destruct ix; reflexivity | exact Hne |].
      unfold len; simpl; lia.
Qed.

(** The first visitor returns the index with the records of the node
    written, and descends. *)
Lemma indexVisitor_indexStep (n : Node) (ix : BindingIndex) :
  indexVisitor n ix = Ret (indexStep n ix, true).
Proof.
  unfold indexStep. destruct n; simpl; try (destruct ix; reflexivity).
  - destruct Value as [[]|], Key as [[]|]; destruct ix; reflexivity.
  - rewrite indexAssignLhs_records. reflexivity.
  - destruct Tok; simpl; try (destruct ix; reflexivity).
    + rewrite indexTypeSpecs_records. reflexivity.
    + rewrite indexVarSpecs_records. reflexivity.
Qed.

Section InspectFold.
Context {S : Type}.
Variable f : Node -> S -> outcome (S * bool).
Variable g : Node -> S -> S.

(** A visitor that always returns and always descends is run on every node
    of the tree, in the order of [subnodes]. *)
Lemma Inspect_fold (root : Node) :
  (forall m s, f m s = Ret (g m s, true)) ->
  forall s, Inspect f root s = Ret (fold_left (fun s m => g m s) (subnodes root) s).
Proof.
  intros Hf. induction root as [n IHn] using Node_children_ind; intros s.
  rewrite Inspect_unfold, Hf, subnodes_unfold. simpl.
  generalize (g n s). clear s.
  induction (children n) as [|c l IHl]; intros s; [reflexivity|].
  rewrite visitAll_cons. inversion IHn as [|? ? Hc Hl]; subst.
  rewrite Hc. simpl. rewrite fold_left_app. apply IHl, Hl.
Qed.
End InspectFold.

Lemma fold_indexStep (nodes : list Node) (ix : BindingIndex) :
  fold_left (fun ix m => indexStep m ix) nodes ix
  = mkIndex
      (recordAll (flat_map typeDeclRecords nodes) (objToTypeDecl ix))
      (recordAll (flat_map varInitRecords nodes) (objToVarInit ix))
      (recordAll (flat_map rangeValueRecords nodes) (objToRangeExprForValue ix))
      (recordAll (flat_map rangeKeyRecords nodes) (objToRangeExprForKey ix)).
Proof.
  revert ix. induction nodes as [|n nodes IH]; intros ix; simpl.
  - destruct ix; reflexivity.
  - rewrite IH. unfold indexStep; simpl. rewrite !recordAll_app. reflexivity.
Qed.

Lemma buildIndex_indexOf (f : Node) : buildIndex f = Ret (indexOf f).
Proof.
  unfold buildIndex.
  rewrite (Inspect_fold indexVisitor indexStep f indexVisitor_indexStep).
  rewrite fold_indexStep. reflexivity.
Qed.

(** X1. For every syntax tree the first traversal of [loc] returns (no
    index of lines 99, 116, 118 is out of range), and the index it builds
    is the one obtained by writing the records of every node of the tree,
    in the order of the traversal, into empty maps: a later record for a
    handle replaces an earlier one. *)
Theorem buildIndex_records (f : Node) : buildIndex f = Ret (indexOf f).
Proof. exact (buildIndex_indexOf f). Qed.

(** ** What an assignment and a declaration record *)

(** The last record for a handle is the one a lookup finds. *)
Lemma recordAll_last (r1 r2 : list (ident * Node)) m (id : ident) (e : Node) :
  (forall r, In r r2 -> Obj (fst r) <> Obj id) ->
  recordAll (r1 ++ (id, e) :: r2) m !! Obj id = Some e.
Proof.
  intros Hlater. rewrite recordAll_app. simpl.
  change (fold_left (fun m r => <[Obj (fst r) := snd r]> m) r2
            (<[Obj id := e]> (recordAll r1 m)))
    with (recordAll r2 (<[Obj id := e]> (recordAll r1 m))).
  rewrite recordAll_frame by exact Hlater. apply lookup_insert_eq.
Qed.

Lemma pairIdents_split (lhs rhs : list Node) (i : nat) (id : ident) (e : Node) :
  lhs !! i = Some (Ident id) -> rhs !! i = Some e ->
  pairIdents lhs rhs
  = pairIdents (take i lhs) (take i rhs)
    ++ (id, e) :: pairIdents (drop (S i) lhs) (drop (S i) rhs).
Proof.
  revert lhs rhs. induction i as [|i IH]; intros [|l lhs] [|r rhs] Hl Hr;
    try discriminate.
  - simpl in Hl, Hr. injection Hl as ->. injection Hr as ->. reflexivity.
  - simpl in Hl, Hr. simpl. rewrite (IH lhs rhs Hl Hr).
    destruct l; reflexivity.
Qed.

(** X2. An assignment with as many expressions as targets records, for a
    target that is an identifier and the last target of the statement with
    its handle, the expression at the same position, whatever was recorded
    for the handle before: when a handle occurs twice among the targets
    ([a, a = x, y], or two identifiers the parser left unresolved) the
    expression of the last one remains.  The assignment leaves the other
    three maps alone and keeps the initializers of the handles that are
    not among its targets. *)
Theorem assign_paired_lookup p (lhs rhs : list Node) (ix : BindingIndex)
    (i : nat) (id : ident) (e : Node) :
  length lhs = length rhs ->
  lhs !! i = Some (Ident id) -> rhs !! i = Some e ->
  (forall (j : nat) id', (i < j)%nat -> lhs !! j = Some (Ident id') ->
     Obj id' <> Obj id) ->
  exists ix',
    indexVisitor (AssignStmt p lhs rhs) ix = Ret (ix', true)
    /\ objToVarInit ix' !! Obj id = Some e
    /\ objToTypeDecl ix' = objToTypeDecl ix
    /\ objToRangeExprForValue ix' = objToRangeExprForValue ix
    /\ objToRangeExprForKey ix' = objToRangeExprForKey ix
    /\ forall h, (forall id', In (Ident id') lhs -> Obj id' <> h) ->
         objToVarInit ix' !! h = objToVarInit ix !! h.
Proof.
  intros Hlen Hl Hr Hlast. eexists. split; [apply indexVisitor_indexStep|].
  unfold indexStep, varInitRecords, assignRecords; simpl.
  apply Nat.eqb_eq in Hlen. rewrite Hlen.
  split; [|repeat split].
  - rewrite (pairIdents_split lhs rhs i id e Hl Hr). apply recordAll_last.
    intros [id' e'] Hin. simpl. apply pairIdents_In in Hin.
    destruct Hin as (j & Hj & _). rewrite lookup_drop in Hj.
    apply (Hlast (S i + j)%nat); [lia | exact Hj].
  - intros h Hh. apply recordAll_frame. intros [id' e'] Hin. simpl.
    apply pairIdents_In in Hin. destruct Hin as (j & Hj & _).
    apply Hh. apply list_elem_of_In. eapply list_elem_of_lookup_2; eauto.
Qed.

(** For [a, b = "x", "y"] with [a] and [b] declared in another file, so
    that both have the nil handle, the record under that handle is ["y"];
    with [a] and [b] declared in the file, [a] gets ["x"]. *)
Lemma assign_paired_witness :
  (exists ix',
      indexVisitor
        (AssignStmt (Sample.at_ 9)
           [Ident (Sample.free 9 "a"); Ident (Sample.free 9 "b")]
           [Sample.strLit 9 "x"; Sample.strLit 9 "y"]) emptyIndex
      = Ret (ix', true)
      /\ objToVarInit ix' !! None = Some (Sample.strLit 9 "y"))
  /\ exists ix',
       indexVisitor
         (AssignStmt (Sample.at_ 9)
            [Ident (Sample.var 9 "a" 3); Ident (Sample.var 9 "b" 4)]
            [Sample.strLit 9 "x"; Sample.strLit 9 "y"]) emptyIndex
       = Ret (ix', true)
       /\ objToVarInit ix' !! Some 3%positive = Some (Sample.strLit 9 "x").
Proof.
  split.
  - destruct (assign_paired_lookup (Sample.at_ 9)
                [Ident (Sample.free 9 "a"); Ident (Sample.free 9 "b")]
                [Sample.strLit 9 "x"; Sample.strLit 9 "y"] emptyIndex
                1 (Sample.free 9 "b") (Sample.strLit 9 "y")
                eq_refl eq_refl eq_refl)
      as (ix' & Hv & Hl & _).
    + intros [|[|j]] id' Hlt Hj; [lia | lia | discriminate Hj].
    + exists ix'. split; [exact Hv | exact Hl].
  - destruct (assign_paired_lookup (Sample.at_ 9)
                [Ident (Sample.var 9 "a" 3); Ident (Sample.var 9 "b" 4)]
                [Sample.strLit 9 "x"; Sample.strLit 9 "y"] emptyIndex
                0 (Sample.var 9 "a" 3) (Sample.strLit 9 "x")
                eq_refl eq_refl eq_refl)
      as (ix' & Hv & Hl & _).
    + intros [|[|j]] id' Hlt Hj; [lia | | discriminate Hj].
      simpl in Hj. injection Hj as <-. discriminate.
    + exists ix'. split; [exact Hv | exact Hl].
Defined.

(** X3. An assignment of one expression to several targets ([a, b :=
    f()]) records that expression for every target that is an identifier,
    and keeps the initializers of the other bindings. *)
Theorem assign_shared_lookup p (lhs : list Node) (e : Node)
    (ix : BindingIndex) :
  length lhs <> 1%nat ->
  exists ix',
    indexVisitor (AssignStmt p lhs [e]) ix = Ret (ix', true)
    /\ (forall id, In (Ident id) lhs -> objToVarInit ix' !! Obj id = Some e)
    /\ forall h, (forall id', In (Ident id') lhs -> Obj id' <> h) ->
         objToVarInit ix' !! h = objToVarInit ix !! h.
Proof.
  intros Hlen. eexists. split; [apply indexVisitor_indexStep|].
  unfold indexStep, varInitRecords, assignRecords; simpl.
  apply Nat.eqb_neq in Hlen. rewrite Hlen. split.
  - intros id Hid. apply recordAll_agreed.
    + intros [id' e'] Hin _. apply shareIdents_In in Hin. apply Hin.
    + right. exists (id, e). split; [|reflexivity].
      apply shareIdents_In. auto.
  - intros h Hh. apply recordAll_frame. intros [id' e'] Hin. simpl.
    apply shareIdents_In in Hin. apply Hh, Hin.
Qed.

Lemma assign_shared_witness :
  exists ix',
    indexVisitor
      (AssignStmt (Sample.at_ 9)
         [Ident (Sample.var 9 "a" 3); Ident (Sample.var 9 "b" 4)]
         [Sample.table]) emptyIndex = Ret (ix', true)
    /\ objToVarInit ix' !! Some 4%positive = Some Sample.table.
Proof.
  destruct (assign_shared_lookup (Sample.at_ 9)
              [Ident (Sample.var 9 "a" 3); Ident (Sample.var 9 "b" 4)]
              Sample.table emptyIndex) as (ix' & Hv & Hl & _).
  - discriminate.
  - exists ix'. split; [exact Hv|].
    apply (Hl (Sample.var 9 "b" 4)). right; left; reflexivity.
Defined.

(** X4. An assignment whose counts differ, with more than one expression
    or none, records nothing: the index is left as it was. *)
Theorem assign_mismatch_ignored p (lhs rhs : list Node) (ix : BindingIndex) :
  length lhs <> length rhs -> length rhs <> 1%nat ->
  indexVisitor (AssignStmt p lhs rhs) ix = Ret (ix, true).
Proof.
  intros Hlen Hone. simpl.
  rewrite indexAssignLhs_ignored; [reflexivity | |]; unfold len; lia.
Qed.

Lemma assign_mismatch_witness :
  indexVisitor
    (AssignStmt (Sample.at_ 9)
       [Ident (Sample.var 9 "a" 3)]
       [Sample.strLit 9 "x"; Sample.strLit 9 "y"]) emptyIndex
  = Ret (emptyIndex, true).
Proof.
  apply assign_mismatch_ignored; simpl; discriminate.
Defined.

Lemma combine_In {A B : Type} (l1 : list A) (l2 : list B) (x : A) (y : B) :
  In (x, y) (combine l1 l2) <->
  exists i : nat, l1 !! i = Some x /\ l2 !! i = Some y.
Proof.
  revert l2. induction l1 as [|a l1 IH]; intros l2; simpl.
  - split; [intros [] | intros (i & Hi & _); discriminate Hi].
  - destruct l2 as [|b l2]; simpl.
    + split; [intros [] | intros (i & _ & Hi); discriminate Hi].
    + rewrite IH. split.
      * intros [H|(i & H)]; [injection H as -> ->; exists 0%nat; auto
                            | exists (S i); exact H].
      * intros ([|i] & Hl & Hr); [left; simpl in *; congruence | right; eauto].
Qed.

Lemma varRecords_In names values (id : ident) (e : Node) :
  In (id, e) (varRecords names values) <->
  exists i : nat, names !! i = Some id /\ values !! i = Some e
                  /\ (S i < length values)%nat.
Proof.
  unfold varRecords. rewrite combine_In. split.
  - intros (i & Hn & Hv). exists i. rewrite lookup_take in Hv.
    destruct (decide (i < length values - 1)%nat); [|discriminate].
    repeat split; auto; lia.
  - intros (i & Hn & Hv & Hi). exists i. split; [exact Hn|].
    rewrite lookup_take.
    destruct (decide (i < length values - 1)%nat); [exact Hv | lia].
Qed.

(** X5. A [var] specification records the value at the position of a name
    only for the positions before the last value: such a name gets its
    value (when a binding recorded twice gets the same value), and the
    initializers of all other bindings, that of a name at the position of
    the last value included, stay as they were. *)
Theorem var_spec_lookup p p' (names : list ident) ty (values : list Node)
    (ix : BindingIndex) :
  exists ix',
    indexVisitor (GenDecl p VAR [ValueSpec p' names ty values]) ix
    = Ret (ix', true)
    /\ (forall (i : nat) id e,
          names !! i = Some id -> values !! i = Some e ->
          (S i < length values)%nat ->
          (forall (j : nat) id' e', names !! j = Some id' ->
             values !! j = Some e' -> (S j < length values)%nat ->
             Obj id' = Obj id -> e' = e) ->
          objToVarInit ix' !! Obj id = Some e)
    /\ forall h,
         (forall (j : nat) id', names !! j = Some id' ->
            (S j < length values)%nat -> Obj id' <> h) ->
         objToVarInit ix' !! h = objToVarInit ix !! h.
Proof.
  eexists. split; [apply indexVisitor_indexStep|].
  unfold indexStep, varInitRecords, varDeclRecords; simpl.
  rewrite app_nil_r. split.
  - intros i id e Hn Hv Hi Hagree. apply recordAll_agreed.
    + intros [id' e'] Hin Hh. simpl in *. apply varRecords_In in Hin.
      destruct Hin as (j & Hj & Hj' & Hlt). eapply Hagree; eauto.
    + right. exists (id, e). split; [|reflexivity].
      apply varRecords_In. eauto.
  - intros h Hh. apply recordAll_frame. intros [id' e'] Hin. simpl.
    apply varRecords_In in Hin. destruct Hin as (j & Hj & _ & Hlt).
    eapply Hh; eauto.
Qed.

(** For [var a, b = "x", "y"] the name [a] gets ["x"] and [b] gets
    nothing. *)
Lemma var_spec_witness :
  exists ix',
    indexVisitor
      (GenDecl (Sample.at_ 8) VAR
         [ValueSpec (Sample.at_ 8)
            [Sample.var 8 "a" 3; Sample.var 8 "b" 4] None
            [Sample.strLit 8 "x"; Sample.strLit 8 "y"]]) emptyIndex
    = Ret (ix', true)
    /\ objToVarInit ix' !! Some 3%positive = Some (Sample.strLit 8 "x")
    /\ objToVarInit ix' !! Some 4%positive = None.
Proof.
  destruct (var_spec_lookup (Sample.at_ 8) (Sample.at_ 8)
              [Sample.var 8 "a" 3; Sample.var 8 "b" 4] None
              [Sample.strLit 8 "x"; Sample.strLit 8 "y"] emptyIndex)
    as (ix' & Hv & Hrec & Hframe).
  exists ix'. split; [exact Hv|]. split.
  - apply (Hrec 0%nat (Sample.var 8 "a" 3) (Sample.strLit 8 "x"));
      [reflexivity | reflexivity | simpl; lia |].
    intros [|[|j]] id' e' Hj Hj' Hlt Hobj; simpl in *;
      [congruence | lia | discriminate Hj].
  - etransitivity; [apply (Hframe (Some 4%positive)) | reflexivity].
    intros [|[|j]] id' Hj Hlt; simpl in *;
      [injection Hj as <-; discriminate | lia | discriminate Hj].
Defined.

(** ** What the index of a file holds *)

Lemma indexTables_indexOf R proj (f : Node) :
  In (R, proj) indexTables ->
  proj (indexOf f) = recordAll (flat_map R (subnodes f)) ∅.
Proof.
  unfold indexTables. simpl.
  intros [H|[H|[H|[H|[]]]]]; injection H as <- <-; reflexivity.
Qed.

(** X6. In each of the four maps, when some node of the file has a record
    for a handle and all records of the file for that handle carry the
    same expression, the lookup under the handle gives that expression: a
    binding declared once is found, wherever in the file it is declared. *)
Theorem index_lookup_agreed (f : Node) (h : option Object) (e : Node)
    R proj :
  In (R, proj) indexTables ->
  (exists n r, In n (subnodes f) /\ In r (R n) /\ Obj (fst r) = h) ->
  (forall n r, In n (subnodes f) -> In r (R n) -> Obj (fst r) = h ->
     snd r = e) ->
  exists ix, buildIndex f = Ret ix /\ proj ix !! h = Some e.
Proof.
  intros Htab (n & r & Hn & Hr & Hh) Hagree.
  exists (indexOf f). split; [apply buildIndex_indexOf|].
  rewrite (indexTables_indexOf R proj f Htab).
  apply recordAll_agreed.
  - intros r' Hr' Hh'. apply in_flat_map in Hr'.
    destruct Hr' as (n' & Hn' & Hr'). eapply Hagree; eauto.
  - right. exists r. split; [|exact Hh]. apply in_flat_map. eauto.
Qed.

(** X7. In each of the four maps the lookup under a handle misses exactly
    when no node of the file has a record for that handle. *)
Theorem index_lookup_none (f : Node) (h : option Object) R proj :
  In (R, proj) indexTables ->
  exists ix,
    buildIndex f = Ret ix
    /\ (proj ix !! h = None <->
        forall n r, In n (subnodes f) -> In r (R n) -> Obj (fst r) <> h).
Proof.
  intros Htab. exists (indexOf f). split; [apply buildIndex_indexOf|].
  rewrite (indexTables_indexOf R proj f Htab), recordAll_None. split.
  - intros H n r Hn Hr. apply H. apply in_flat_map. eauto.
  - intros H r Hr. apply in_flat_map in Hr. destruct Hr as (n & Hn & Hr).
    eapply H; eauto.
Qed.

(** Every node of a listed tree satisfies what each listed node does. *)
Ltac each_node H :=
  vm_compute in H;
  repeat (destruct H as [<-|H]; [|]); [..|destruct H].

(** In [Sample.tableFile] the loop variable [tc] is bound once, to
    [testcases]; nothing is recorded there for the handle 7. *)
Lemma index_lookup_agreed_witness :
  exists ix,
    buildIndex Sample.tableFile = Ret ix
    /\ objToRangeExprForValue ix !! Some 4%positive
       = Some (Ident (Sample.var 13 "testcases" 3)).
Proof.
  apply (index_lookup_agreed Sample.tableFile (Some 4%positive)
           (Ident (Sample.var 13 "testcases" 3))
           rangeValueRecords objToRangeExprForValue).
  - right; right; left; reflexivity.
  - exists (Sample.rangeValue 13 4 3
              [Sample.logCall 14 "L" [Sample.tcName 14 4]]).
    exists (Sample.var 13 "tc" 4, Ident (Sample.var 13 "testcases" 3)).
    split; [|split; [left; reflexivity | reflexivity]].
    vm_compute. repeat first [left; reflexivity | right].
  - intros n r Hn Hr _. each_node Hn;
      first [ destruct Hr as [<-|[]]; reflexivity | destruct Hr ].
Defined.

Lemma index_lookup_none_witness :
  exists ix,
    buildIndex Sample.tableFile = Ret ix
    /\ objToVarInit ix !! Some 7%positive = None.
Proof.
  destruct (index_lookup_none Sample.tableFile (Some 7%positive)
              varInitRecords objToVarInit) as (ix & Hix & Hnone).
  - right; left; reflexivity.
  - exists ix. split; [exact Hix|]. apply Hnone.
    intros n r Hn Hr. each_node Hn;
      first [ destruct Hr as [<-|[]]; discriminate | destruct Hr ].
Defined.

(** ** The field indexer *)

Lemma fieldHasName_existsb (names : list ident) (name : string) :
  fieldHasName names name
  = existsb (fun id => String.eqb (Name id) name) names.
Proof.
  induction names as [|id names IH]; simpl; [reflexivity|].
  destruct (String.eqb (Name id) name); [reflexivity | exact IH].
Qed.

Lemma findStructFieldIndexFrom_first (l : list Node) (k : Z) (name : string) :
  (findStructFieldIndexFrom l k name = -1
   /\ forall field, In field l -> declaresName name field = false)
  \/ exists (i : nat) field,
       findStructFieldIndexFrom l k name = k + Z.of_nat i
       /\ l !! i = Some field
       /\ declaresName name field = true
       /\ forall (j : nat) field', (j < i)%nat -> l !! j = Some field' ->
            declaresName name field' = false.
Proof.
  revert k. induction l as [|field l IH]; intros k; simpl.
  - left. split; [reflexivity | intros ? []].
  - assert (Hhead :
        match field with
        | Field _ names _ _ => fieldHasName names name
        | _ => false
        end = declaresName name field).
    { destruct field; try reflexivity. apply fieldHasName_existsb. }
    rewrite Hhead. destruct (declaresName name field) eqn:Hd.
    + right. exists 0%nat, field. repeat split; [lia | exact Hd |].
      intros j field' Hj; lia.
    + destruct (IH (k + 1)) as [[Hr Hall]|(i & fld & Hr & Hi & Hfld & Hearlier)].
      * left. split; [exact Hr|]. intros fld [<-|Hin]; auto.
      * right. exists (S i), fld. repeat split; [rewrite Hr; lia | exact Hi | exact Hfld |].
        intros [|j] field' Hj Hl; simpl in Hl.
        -- injection Hl as <-. exact Hd.
        -- apply (Hearlier j); [lia | exact Hl].
Qed.

(** X8. For a structure type the field indexer answers -1 exactly when no
    field of the list declares the name; any other answer is the index,
    within the list, of the first field that declares it. *)
Theorem findStructFieldIndex_first p p' (l : list Node) (name : string) :
  (findStructFieldIndex (StructType p (FieldList p' l)) name = -1 <->
   forall field, In field l -> declaresName name field = false)
  /\ (findStructFieldIndex (StructType p (FieldList p' l)) name <> -1 ->
      exists (i : nat) field,
        findStructFieldIndex (StructType p (FieldList p' l)) name = Z.of_nat i
        /\ l !! i = Some field
        /\ declaresName name field = true
        /\ forall (j : nat) field', (j < i)%nat -> l !! j = Some field' ->
             declaresName name field' = false).
Proof.
  simpl.
  destruct (findStructFieldIndexFrom_first l 0 name)
    as [[Hr Hall]|(i & field & Hr & Hi & Hfield & Hearlier)].
  - split; [split; auto | intros Hne; contradiction].
  - split.
    + split; [rewrite Hr; lia|].
      intros Hall. rewrite Hall in Hfield; [discriminate|].
      apply list_elem_of_In. eapply list_elem_of_lookup_2; eauto.
    + intros _. exists i, field. rewrite Hr. repeat split; auto.
Qed.

Lemma findStructFieldIndex_first_witness :
  exists (i : nat) field,
    findStructFieldIndex (Sample.groupedStruct 9) "name" = Z.of_nat i
    /\ [ Field (Sample.at_ 9) [Sample.var 9 "a" 6; Sample.var 9 "b" 7]
           (Ident (Sample.free 9 "int")) None;
         Field (Sample.at_ 9) [Sample.var 9 "name" 8]
           (Ident (Sample.free 9 "string")) None ] !! i = Some field
    /\ declaresName "name" field = true
    /\ forall (j : nat) field', (j < i)%nat ->
         [ Field (Sample.at_ 9) [Sample.var 9 "a" 6; Sample.var 9 "b" 7]
             (Ident (Sample.free 9 "int")) None;
           Field (Sample.at_ 9) [Sample.var 9 "name" 8]
             (Ident (Sample.free 9 "string")) None ] !! j = Some field' ->
         declaresName "name" field' = false.
Proof.
  apply (proj2 (findStructFieldIndex_first (Sample.at_ 9) (Sample.at_ 9) _ "name")).
  vm_compute. discriminate.
Defined.

(** X9. Where every field of a structure type declares a single name,
    the field indexer answers with the position the name has among the
    declared names, which is its position in an unkeyed literal; -1 when
    the name is not declared. *)
Theorem field_index_of_single_names p p' (l : list Node) (name : string) :
  Forall (fun fld => exists q id ty tag, fld = Field q [id] ty tag) l ->
  findStructFieldIndex (StructType p (FieldList p' l)) name
  = fieldPosition (StructType p (FieldList p' l)) name.
Proof. apply findStructFieldIndex_ungrouped. Qed.

(** The structure of the sample table declares one name per field. *)
Lemma field_index_of_single_names_witness :
  findStructFieldIndex (Sample.nameStruct 9) "name"
  = fieldPosition (Sample.nameStruct 9) "name".
Proof.
  apply field_index_of_single_names.
  constructor; [|constructor]. do 4 eexists. reflexivity.
Defined.

(** X10. In a sequence table whose element type is a structure type that
    declares one name per field, an unkeyed entry with the quoted key at
    the position of the field is returned by the loop over the fields
    (lines 251-269), by the scan of a table that begins with it, and by
    [findTestCaseItem] for such a table. *)
Theorem positional_entry_matches (Quote : string -> string) p p' (l : list Node)
    (key value : string) q ty (fields : list Node) (i : nat) pos :
  Forall (fun fld => exists q id ty tag, fld = Field q [id] ty tag) l ->
  fieldPosition (StructType p (FieldList p' l)) key = Z.of_nat i ->
  fields !! i = Some (BasicLit pos STRING (Quote value)) ->
  testcaseFieldsMatch Quote (StructType p (FieldList p' l)) key value fields 0
  = true
  /\ (forall rest,
        findInElts Quote (StructType p (FieldList p' l)) key value
          (CompositeLit q ty fields :: rest)
        = Some (CompositeLit q ty fields))
  /\ forall pt pa len rest typeDecl,
       findTestCaseItem Quote
         (Some (CompositeLit pt
                  (Some (ArrayType pa len (StructType p (FieldList p' l))))
                  (CompositeLit q ty fields :: rest)))
         key value typeDecl
       = (Some (CompositeLit q ty fields), []).
Proof.
  intros Hl Hpos Hfield.
  assert (Hloop : testcaseFieldsMatch Quote (StructType p (FieldList p' l))
                    key value fields 0 = true).
  { change 0 with (Z.of_nat 0).
    rewrite (testcaseFieldsMatch_existsb Quote _ key value fields 0).
    apply existsb_exists.
    exists (i, BasicLit pos STRING (Quote value)). split.
    - apply list_elem_of_In. apply list_elem_of_lookup. exists i.
      rewrite list_lookup_imap, Hfield. reflexivity.
    - unfold fieldMatches.
      rewrite (findStructFieldIndex_ungrouped p p' l key Hl), Hpos, Z.eqb_refl.
      simpl. apply String.eqb_refl. }
  assert (Hscan : forall rest,
            findInElts Quote (StructType p (FieldList p' l)) key value
              (CompositeLit q ty fields :: rest)
            = Some (CompositeLit q ty fields)).
  { intros rest. simpl findInElts. rewrite Hloop. reflexivity. }
  split; [exact Hloop | split; [exact Hscan|]].
  intros pt pa len rest typeDecl. unfold findTestCaseItem.
  rewrite Hscan. reflexivity.
Qed.

(** [struct{ name string; want string }] and the table
    [{ {"a", "1"}, {"b", "2"} }]: the key [want] is at position 1, and the
    first entry is found for the value ["1"]. *)
Lemma positional_entry_witness :
  findTestCaseItem QuoteASCII
    (Some (CompositeLit (Sample.at_ 9)
             (Some (ArrayType (Sample.at_ 9) None
                (StructType (Sample.at_ 9)
                   (FieldList (Sample.at_ 9)
                      [ Field (Sample.at_ 9) [Sample.var 9 "name" 8]
                          (Ident (Sample.free 9 "string")) None;
                        Field (Sample.at_ 9) [Sample.var 9 "want" 7]
                          (Ident (Sample.free 9 "string")) None ]))))
             [ CompositeLit (Sample.at_ 10) None
                 [Sample.strLit 10 "a"; Sample.strLit 10 "1"];
               CompositeLit (Sample.at_ 11) None
                 [Sample.strLit 11 "b"; Sample.strLit 11 "2"] ]))
    "want" "1" ∅
  = (Some (CompositeLit (Sample.at_ 10) None
             [Sample.strLit 10 "a"; Sample.strLit 10 "1"]), []).
Proof.
  refine (proj2 (proj2
    (positional_entry_matches QuoteASCII (Sample.at_ 9) (Sample.at_ 9)
       [ Field (Sample.at_ 9) [Sample.var 9 "name" 8]
           (Ident (Sample.free 9 "string")) None;
         Field (Sample.at_ 9) [Sample.var 9 "want" 7]
           (Ident (Sample.free 9 "string")) None ]
       "want" "1" (Sample.at_ 10) None
       [Sample.strLit 10 "a"; Sample.strLit 10 "1"] 1 (Sample.at_ 10)
       _ eq_refl eq_refl))
    (Sample.at_ 9) (Sample.at_ 9) None
    [CompositeLit (Sample.at_ 11) None
       [Sample.strLit 11 "b"; Sample.strLit 11 "2"]] ∅).
  constructor; [|constructor; [|constructor]]; do 4 eexists; reflexivity.
Defined.

(** ** More on traversals *)

Section InspectMore.
Context {S : Type}.
Variable f : Node -> S -> outcome (S * bool).
Variable P : S -> Prop.

(** What every returning visit keeps, a returning traversal keeps. *)
Lemma Inspect_preserves (root : Node) :
  (forall m s r, In m (subnodes root) -> P s -> f m s = Ret r -> P (fst r)) ->
  forall s s', P s -> Inspect f root s = Ret s' -> P s'.
Proof.
  intros Hf s s' Hs Hrun.
  assert (H : alike (fun s1 s2 => s1 = s2 /\ P s1)
                (Inspect f root s) (Inspect f root s)).
  { apply (Inspect_alike f f (fun s1 s2 => s1 = s2 /\ P s1) root);
      [|split; [reflexivity | exact Hs]].
    intros m s1 s2 Hm [<- Hs1]. unfold alike.
    destruct (f m s1) as [r|msg] eqn:Hr; [|reflexivity].
    split; [split; [reflexivity|] | reflexivity]. eapply Hf; eauto. }
  rewrite Hrun in H. simpl in H. apply H.
Qed.

(** A property that the visit of [target] establishes from any state,
    that every visit keeps, and that holds whenever a visit refuses to
    descend, holds after the traversal of a tree that contains [target]:
    the traversal reaches the node, or stops at a node where the property
    holds already. *)
Lemma Inspect_establishes (target root : Node) :
  (forall m s, In m (subnodes root) ->
     exists s' d, f m s = Ret (s', d)
                  /\ (P s -> P s') /\ (d = false -> P s')
                  /\ (m = target -> P s')) ->
  In target (subnodes root) ->
  forall s, exists s', Inspect f root s = Ret s' /\ P s'.
Proof.
  induction root as [n IHn] using Node_children_ind; intros Hf Htarget s.
  assert (Hkeep : forall c, In c (children n) -> forall s0, P s0 ->
            exists s', Inspect f c s0 = Ret s' /\ P s').
  { intros c Hc s0 Hs0. apply (Inspect_total f P c); [|exact Hs0].
    intros m s1 Hm Hs1.
    destruct (Hf m s1 (subnodes_child n c m Hc Hm)) as (s' & d & Hv & Hp & _).
    exists s', d; auto. }
  assert (Hkeeps : forall l, (forall c, In c l -> In c (children n)) ->
            forall s0, P s0 ->
            exists s', visitAll (Inspect f) l s0 = Ret s' /\ P s').
  { induction l as [|c l IHl]; intros Hl s0 Hs0; [exists s0; auto|].
    rewrite visitAll_cons.
    destruct (Hkeep c (Hl c (or_introl eq_refl)) s0 Hs0) as (s1 & -> & Hs1).
    apply IHl; [intros c' Hc'; apply Hl; right; exact Hc' | exact Hs1]. }
  rewrite Inspect_unfold.
  destruct (Hf n s (subnodes_self n)) as (s1 & d & -> & Hp & Hd & Ht). simpl.
  destruct d; [|exists s1; auto].
  rewrite subnodes_unfold in Htarget. destruct Htarget as [<-|Htarget].
  { apply Hkeeps; auto. }
  apply in_flat_map in Htarget. destruct Htarget as (c0 & Hc0 & Htc0).
  clear Hp Hd Ht.
  assert (Hgo : forall l, (forall c, In c l -> In c (children n)) ->
            In c0 l -> Forall (fun c =>
              (forall m s, In m (subnodes c) ->
                 exists s' d, f m s = Ret (s', d)
                              /\ (P s -> P s') /\ (d = false -> P s')
                              /\ (m = target -> P s')) ->
              In target (subnodes c) ->
              forall s, exists s', Inspect f c s = Ret s' /\ P s') l ->
            forall s0, exists s', visitAll (Inspect f) l s0 = Ret s' /\ P s').
  { induction l as [|c l IHl]; intros Hl Hin HIH s0; [destruct Hin|].
    rewrite visitAll_cons. inversion HIH as [|? ? Hc HIHl]; subst.
    destruct Hin as [->|Hin].
    - destruct Hc with (s := s0) as (s2 & -> & Hs2).
      + intros m s3 Hm. apply Hf.
        eapply subnodes_child; [apply Hl; left; reflexivity | exact Hm].
      + exact Htc0.
      + apply Hkeeps; [intros c' Hc'; apply Hl; right; exact Hc' | exact Hs2].
    - assert (Hrun : exists s2, Inspect f c s0 = Ret s2).
      { destruct (Inspect_total f (fun _ => True) c) with (s := s0)
          as (s2 & Hs2 & _); [|exact I|eauto].
        intros m s3 Hm _.
        destruct (Hf m s3) as (s' & d' & Hv & _).
        { eapply subnodes_child; [apply Hl; left; reflexivity | exact Hm]. }
        exists s', d'; auto. }
      destruct Hrun as (s2 & ->).
      apply IHl; [intros c' Hc'; apply Hl; right; exact Hc' | exact Hin | exact HIHl]. }
  apply Hgo; auto.
Qed.
End InspectMore.

(** ** Locating an entry *)

Section Locating.
Variable Quote : string -> string.

Lemma writtenAs_isMethodCall (obj fn : string) p callee args :
  writtenAs obj fn (CallExpr p callee args) ->
  isMethodCall (CallExpr p callee args) obj fn = Some (callee, args).
Proof.
  intros (p0 & p' & id & sel & args0 & Heq & Hid & Hsel).
  injection Heq as -> -> ->. simpl.
  rewrite Hid, Hsel, !String.eqb_refl. reflexivity.
Qed.

(** The visit of a call site: the argument is resolved through the map of
    its form. *)
Lemma matchVisitor_callSite f line value ix call arg st :
  callSite f line call arg ->
  matchVisitor Quote line value ix call st
  = match isSelector arg with
    | Some (id, key) =>
        Ret (resolveVia Quote (objToRangeExprForValue ix !! Obj id)
               key value ix st)
    | None =>
        match arg with
        | Ident id =>
            Ret (resolveVia Quote (objToRangeExprForKey ix !! Obj id)
                   (Name id) value ix st)
        | _ => Ret (st, true)
        end
    end.
Proof.
  intros (_ & Hline & (p & callee & args & -> & Hw) & _).
  unfold matchVisitor. rewrite Hline, Z.eqb_refl. simpl negb. cbv iota.
  rewrite (writtenAs_isMethodCall _ _ _ _ _ Hw). reflexivity.
Qed.

(** Any other node leaves the state alone and lets the traversal descend. *)
Lemma matchVisitor_elsewhere f line value ix call arg m st :
  callSite f line call arg -> In m (subnodes f) -> m <> call ->
  matchVisitor Quote line value ix m st = Ret (st, true).
Proof.
  intros (_ & _ & _ & Honly) Hm Hne. apply matchVisitor_skip.
  destruct (Z.eq_dec (Line (nodePos m)) line) as [Hline|Hline];
    [right | left; exact Hline].
  intros Hw. apply Hne. apply Honly; assumption.
Qed.

Lemma callSite_dec f line call arg m :
  callSite f line call arg -> In m (subnodes f) ->
  m = call
  \/ forall value ix st, matchVisitor Quote line value ix m st = Ret (st, true).
Proof.
  intros Hsite Hm.
  destruct (Z.eq_dec (Line (nodePos m)) line) as [Hline|Hline].
  - destruct (isWrittenAs "dataloc" "L" m) eqn:Hw.
    + left. destruct Hsite as (_ & _ & _ & Honly).
      apply Honly; [exact Hm | exact Hline | apply writtenAs_iff, Hw].
    + right. intros value ix st. apply matchVisitor_skip. right.
      intros H. apply writtenAs_iff in H. congruence.
  - right. intros value ix st. apply matchVisitor_skip. left. exact Hline.
Qed.

(** When the visit of the one call site puts a position into [loc],
    whatever [loc] held, and stops there, that position is the result. *)
Lemma loc_site_found w value step f line ix call arg target :
  resolveCaller w step = Ok (f, line) ->
  buildIndex f = Ret ix ->
  callSite f line call arg ->
  (forall st, exists out,
      matchVisitor Quote line value ix call st = Ret (mkMatch target out, false)) ->
  fst (loc Quote w value step) = Ret (target, None).
Proof.
  intros Hres Hix Hsite Hcall.
  destruct (loc_resolve_ok Quote w value step f line Hres)
    as (ix' & log1 & Hix' & ->).
  rewrite Hix in Hix'. injection Hix' as <-.
  destruct (Inspect_establishes (matchVisitor Quote line value ix)
              (fun st => locVar st = target) call f)
    with (s := mkMatch "(unknown)" (Log w ++ log1)) as (st & -> & Hst).
  - intros m st Hm.
    destruct (callSite_dec f line call arg m Hsite Hm) as [->|Hskip].
    + destruct (Hcall st) as (out & ->).
      exists (mkMatch target out), false. repeat split; reflexivity.
    + rewrite Hskip. exists st, true.
      repeat split; [auto | discriminate |].
      intros ->. destruct (Hcall st) as (out & Hv).
      rewrite Hskip in Hv. discriminate Hv.
  - apply Hsite.
  - simpl. rewrite Hst. reflexivity.
Qed.

(** When the visit of the one call site leaves [loc] as it was, the
    result is ["(unknown)"]. *)
Lemma loc_site_missed w value step f line ix call arg :
  resolveCaller w step = Ok (f, line) ->
  buildIndex f = Ret ix ->
  callSite f line call arg ->
  (forall st, exists out d,
      matchVisitor Quote line value ix call st
      = Ret (mkMatch (locVar st) out, d)) ->
  fst (loc Quote w value step) = Ret ("(unknown)", None).
Proof.
  intros Hres Hix Hsite Hcall.
  destruct (loc_resolve_ok Quote w value step f line Hres)
    as (ix' & log1 & Hix' & ->).
  rewrite Hix in Hix'. injection Hix' as <-.
  destruct (Inspect_total (matchVisitor Quote line value ix)
              (fun st => locVar st = "(unknown)") f)
    with (s := mkMatch "(unknown)" (Log w ++ log1)) as (st & -> & Hst).
  - intros m st Hm Hst.
    destruct (callSite_dec f line call arg m Hsite Hm) as [->|Hskip].
    + destruct (Hcall st) as (out & d & ->).
      exists (mkMatch (locVar st) out), d. split; [reflexivity | exact Hst].
    + rewrite Hskip. exists st, true. split; [reflexivity | exact Hst].
  - reflexivity.
  - simpl. rewrite Hst. reflexivity.
Qed.

(** X11. The file has one call site on the caller's line, written
    [dataloc.L(tc.key)]; the index maps the binding of [tc] to a variable
    as the expression ranged over, and the binding of that variable to a
    sequence literal whose element type is resolved.  Then [loc] returns,
    without error, the position of the first entry of the literal that
    matches the key. *)
Theorem loc_locates_by_selector (w : World) (value : string) (step : Z)
    (f : Node) (line : Z) (ix : BindingIndex) (call : Node)
    q (tc sel tcs : ident) pt pa len elt (elts : list Node) (t entry : Node) :
  resolveCaller w step = Ok (f, line) ->
  buildIndex f = Ret ix ->
  callSite f line call (SelectorExpr q (Ident tc) sel) ->
  objToRangeExprForValue ix !! Obj tc = Some (Ident tcs) ->
  objToVarInit ix !! Obj tcs
  = Some (CompositeLit pt (Some (ArrayType pa len elt)) elts) ->
  elementType (objToTypeDecl ix) elt = Some t ->
  find (entryMatches Quote t (Name sel) value) elts = Some entry ->
  fst (loc Quote w value step) = Ret (formatPos (nodePos entry), None).
Proof.
  intros Hres Hix Hsite Hrange Hinit Htype Hfind.
  apply (loc_site_found w value step f line ix call _ _ Hres Hix Hsite).
  intros st. rewrite (matchVisitor_callSite f line value ix call _ st Hsite).
  simpl. rewrite Hrange. simpl. rewrite Hinit.
  rewrite (findTestCaseItem_sequence Quote _ _ _ _ _ _ _ _ _ Htype), Hfind.
  eexists. reflexivity.
Qed.

(** X12. The file has one call site on the caller's line, written
    [dataloc.L(key)] with the key variable of a loop; the index maps the
    binding of [key] to a variable as the expression ranged over, and the
    binding of that variable to a mapping literal.  Then [loc] returns,
    without error, the position of the first entry of the literal that
    matches the key. *)
Theorem loc_locates_by_key_variable (w : World) (value : string) (step : Z)
    (f : Node) (line : Z) (ix : BindingIndex) (call : Node)
    (k tcs : ident) pt pm kt vt (elts : list Node) (entry : Node) :
  resolveCaller w step = Ok (f, line) ->
  buildIndex f = Ret ix ->
  callSite f line call (Ident k) ->
  objToRangeExprForKey ix !! Obj k = Some (Ident tcs) ->
  objToVarInit ix !! Obj tcs
  = Some (CompositeLit pt (Some (MapType pm kt vt)) elts) ->
  find (entryMatches Quote (MapType pm kt vt) (Name k) value) elts
  = Some entry ->
  fst (loc Quote w value step) = Ret (formatPos (nodePos entry), None).
Proof.
  intros Hres Hix Hsite Hrange Hinit Hfind.
  apply (loc_site_found w value step f line ix call _ _ Hres Hix Hsite).
  intros st. rewrite (matchVisitor_callSite f line value ix call _ st Hsite).
  simpl. rewrite Hrange. simpl. rewrite Hinit.
  rewrite (findTestCaseItem_mapping Quote), Hfind.
  eexists. reflexivity.
Qed.

(** X13. In the setting of X11, when no entry of the literal matches the
    key, [loc] returns ["(unknown)"] without error. *)
Theorem loc_unknown_without_entry (w : World) (value : string) (step : Z)
    (f : Node) (line : Z) (ix : BindingIndex) (call : Node)
    q (tc sel tcs : ident) pt pa len elt (elts : list Node) (t : Node) :
  resolveCaller w step = Ok (f, line) ->
  buildIndex f = Ret ix ->
  callSite f line call (SelectorExpr q (Ident tc) sel) ->
  objToRangeExprForValue ix !! Obj tc = Some (Ident tcs) ->
  objToVarInit ix !! Obj tcs
  = Some (CompositeLit pt (Some (ArrayType pa len elt)) elts) ->
  elementType (objToTypeDecl ix) elt = Some t ->
  find (entryMatches Quote t (Name sel) value) elts = None ->
  fst (loc Quote w value step) = Ret ("(unknown)", None).
Proof.
  intros Hres Hix Hsite Hrange Hinit Htype Hfind.
  apply (loc_site_missed w value step f line ix call _ Hres Hix Hsite).
  intros st. rewrite (matchVisitor_callSite f line value ix call _ st Hsite).
  simpl. rewrite Hrange. simpl. rewrite Hinit.
  rewrite (findTestCaseItem_sequence Quote _ _ _ _ _ _ _ _ _ Htype), Hfind.
  do 2 eexists. reflexivity.
Qed.

(** X14. When the element type of the sequence literal is a named type
    for which the index has no declaration (a type declared in another
    file), [loc] returns ["(unknown)"] whatever the entries are. *)
Theorem loc_unknown_for_undeclared_type (w : World) (value : string)
    (step : Z) (f : Node) (line : Z) (ix : BindingIndex) (call : Node)
    q (tc sel tcs ty : ident) pt pa len (elts : list Node) :
  resolveCaller w step = Ok (f, line) ->
  buildIndex f = Ret ix ->
  callSite f line call (SelectorExpr q (Ident tc) sel) ->
  objToRangeExprForValue ix !! Obj tc = Some (Ident tcs) ->
  objToVarInit ix !! Obj tcs
  = Some (CompositeLit pt (Some (ArrayType pa len (Ident ty))) elts) ->
  objToTypeDecl ix !! Obj ty = None ->
  fst (loc Quote w value step) = Ret ("(unknown)", None).
Proof.
  intros Hres Hix Hsite Hrange Hinit Htype.
  apply (loc_site_missed w value step f line ix call _ Hres Hix Hsite).
  intros st. rewrite (matchVisitor_callSite f line value ix call _ st Hsite).
  simpl. rewrite Hrange. simpl. rewrite Hinit. simpl. rewrite Htype.
  do 2 eexists. reflexivity.
Qed.

(** X15. When the index has no initializer for the variable ranged over
    (it is declared in another file, or by a [var] declaration with one
    value), or the initializer is not a composite literal with a slice,
    array or map type in front, [loc] returns ["(unknown)"]. *)
Theorem loc_unknown_without_literal (w : World) (value : string) (step : Z)
    (f : Node) (line : Z) (ix : BindingIndex) (call : Node)
    q (tc sel tcs : ident) :
  resolveCaller w step = Ok (f, line) ->
  buildIndex f = Ret ix ->
  callSite f line call (SelectorExpr q (Ident tc) sel) ->
  objToRangeExprForValue ix !! Obj tc = Some (Ident tcs) ->
  match objToVarInit ix !! Obj tcs with
  | Some (CompositeLit _ (Some (ArrayType _ _ _)) _)
  | Some (CompositeLit _ (Some (MapType _ _ _)) _) => False
  | _ => True
  end ->
  fst (loc Quote w value step) = Ret ("(unknown)", None).
Proof.
  intros Hres Hix Hsite Hrange Hinit.
  apply (loc_site_missed w value step f line ix call _ Hres Hix Hsite).
  intros st. rewrite (matchVisitor_callSite f line value ix call _ st Hsite).
  simpl. rewrite Hrange. simpl.
  destruct (objToVarInit ix !! Obj tcs) as [init|]; simpl;
    [|do 2 eexists; rewrite app_nil_r; destruct st; reflexivity].
  destruct init; simpl; try (do 2 eexists; reflexivity).
  destruct Type_ as [ty|]; simpl; try (do 2 eexists; reflexivity).
  destruct ty; simpl; try (do 2 eexists; reflexivity); contradiction.
Qed.
End Locating.

(** Proves [callSite] for a listed tree and a call of it. *)
Ltac solve_callSite :=
  split;
  [ vm_compute; repeat first [left; reflexivity | right]
  | split;
    [ reflexivity
    | split;
      [ do 3 eexists; split;
        [reflexivity | apply writtenAs_iff; reflexivity]
      | let m := fresh "m" in
        let Hm := fresh "Hm" in
        let Hl := fresh "Hl" in
        let Hw := fresh "Hw" in
        intros m Hm Hl Hw; apply writtenAs_iff in Hw; each_node Hm;
        vm_compute in Hl, Hw;
        first [discriminate Hl | discriminate Hw | reflexivity] ] ] ].

Lemma tableFile_callSite :
  callSite Sample.tableFile 14 Sample.selectorCall (Sample.tcName 14 4).
Proof. solve_callSite. Qed.

Lemma mapFile_callSite :
  callSite Sample.mapFile 14 Sample.keyCall (Ident (Sample.var 14 "name" 5)).
Proof. solve_callSite. Qed.

Lemma foreignTypeFile_callSite :
  callSite Sample.foreignTypeFile 14 Sample.selectorCall (Sample.tcName 14 4).
Proof. solve_callSite. Qed.

Lemma varFile_callSite :
  callSite Sample.varFile 15
    (CallExpr (Sample.at_ 15)
       (SelectorExpr (Sample.at_ 15) (Ident (Sample.free 15 "dataloc"))
          (Sample.free 15 "L"))
       [Sample.tcName 15 4])
    (Sample.tcName 15 4).
Proof. solve_callSite. Qed.

(** [Sample.tableFile], key ["b"]: the entry of line 11. *)
Lemma loc_locates_by_selector_witness :
  fst (loc QuoteASCII (Sample.world Sample.tableFile 2 14) "b" 2)
  = Ret ("demo_test.go:11"%string, None).
Proof.
  exact (loc_locates_by_selector QuoteASCII
           (Sample.world Sample.tableFile 2 14) "b" 2 Sample.tableFile 14
           (indexOf Sample.tableFile) Sample.selectorCall
           (Sample.at_ 14) (Sample.var 14 "tc" 4) (Sample.free 14 "name")
           (Sample.var 13 "testcases" 3)
           (Sample.at_ 9) (Sample.at_ 9) None (Sample.nameStruct 9)
           [Sample.keyed 10 "a"; Sample.keyed 11 "b"]
           (Sample.nameStruct 9) (Sample.keyed 11 "b")
           eq_refl (buildIndex_indexOf Sample.tableFile) tableFile_callSite
           eq_refl eq_refl eq_refl eq_refl).
Defined.

(** [Sample.mapFile], key ["y"]: the entry of line 11. *)
Lemma loc_locates_by_key_variable_witness :
  fst (loc QuoteASCII (Sample.world Sample.mapFile 2 14) "y" 2)
  = Ret ("demo_test.go:11"%string, None).
Proof.
  exact (loc_locates_by_key_variable QuoteASCII
           (Sample.world Sample.mapFile 2 14) "y" 2 Sample.mapFile 14
           (indexOf Sample.mapFile) Sample.keyCall
           (Sample.var 14 "name" 5) (Sample.var 13 "testcases" 3)
           (Sample.at_ 9) (Sample.at_ 9) (Ident (Sample.free 9 "string"))
           (Ident (Sample.free 9 "int"))
           [Sample.mapEntry 10 "x" "1"; Sample.mapEntry 11 "y" "2"]
           (Sample.mapEntry 11 "y" "2")
           eq_refl (buildIndex_indexOf Sample.mapFile) mapFile_callSite
           eq_refl eq_refl eq_refl).
Defined.

(** [Sample.tableFile], key ["c"]. *)
Lemma loc_unknown_without_entry_witness :
  fst (loc QuoteASCII (Sample.world Sample.tableFile 2 14) "c" 2)
  = Ret ("(unknown)"%string, None).
Proof.
  exact (loc_unknown_without_entry QuoteASCII
           (Sample.world Sample.tableFile 2 14) "c" 2 Sample.tableFile 14
           (indexOf Sample.tableFile) Sample.selectorCall
           (Sample.at_ 14) (Sample.var 14 "tc" 4) (Sample.free 14 "name")
           (Sample.var 13 "testcases" 3)
           (Sample.at_ 9) (Sample.at_ 9) None (Sample.nameStruct 9)
           [Sample.keyed 10 "a"; Sample.keyed 11 "b"]
           (Sample.nameStruct 9)
           eq_refl (buildIndex_indexOf Sample.tableFile) tableFile_callSite
           eq_refl eq_refl eq_refl eq_refl).
Defined.

(** [Sample.foreignTypeFile], key ["a"], which an entry has. *)
Lemma loc_unknown_for_undeclared_type_witness :
  fst (loc QuoteASCII (Sample.world Sample.foreignTypeFile 2 14) "a" 2)
  = Ret ("(unknown)"%string, None).
Proof.
  exact (loc_unknown_for_undeclared_type QuoteASCII
           (Sample.world Sample.foreignTypeFile 2 14) "a" 2
           Sample.foreignTypeFile 14
           (indexOf Sample.foreignTypeFile) Sample.selectorCall
           (Sample.at_ 14) (Sample.var 14 "tc" 4) (Sample.free 14 "name")
           (Sample.var 13 "testcases" 3) (Sample.free 9 "testcase")
           (Sample.at_ 9) (Sample.at_ 9) None
           [Sample.keyed 10 "a"; Sample.keyed 11 "b"]
           eq_refl (buildIndex_indexOf Sample.foreignTypeFile)
           foreignTypeFile_callSite eq_refl eq_refl eq_refl).
Defined.

(** [Sample.varFile]: the table is declared by [var testcases = ...]. *)
Lemma loc_unknown_without_literal_witness :
  fst (loc QuoteASCII (Sample.world Sample.varFile 2 15) "a" 2)
  = Ret ("(unknown)"%string, None).
Proof.
  exact (loc_unknown_without_literal QuoteASCII
           (Sample.world Sample.varFile 2 15) "a" 2 Sample.varFile 15
           (indexOf Sample.varFile) _
           (Sample.at_ 15) (Sample.var 15 "tc" 4) (Sample.free 15 "name")
           (Sample.var 14 "testcases" 3)
           eq_refl (buildIndex_indexOf Sample.varFile) varFile_callSite
           eq_refl I).
Defined.

(** ** The pair [loc] returns and the log it leaves *)

Section Returned.
Variable Quote : string -> string.

Lemma resolveVia_logged rangeExpr key value ix st :
  exists out,
    logged (fst (resolveVia Quote rangeExpr key value ix st)) = logged st ++ out.
Proof.
  unfold resolveVia. destruct rangeExpr as [[]|]; simpl;
    try (exists []; rewrite app_nil_r; reflexivity).
  destruct (findTestCaseItem _ _ _ _ _) as [[nd|] out]; simpl; eauto.
Qed.

(** A visit that returns leaves in [loc] what it was or the position of a
    node, and only adds to the log. *)
Lemma matchVisitor_state line value ix n st r :
  matchVisitor Quote line value ix n st = Ret r ->
  (locVar (fst r) = locVar st \/ exists p, locVar (fst r) = formatPos p)
  /\ exists out, logged (fst r) = logged st ++ out.
Proof.
  assert (Hsame : forall d : bool,
            (locVar (fst (st, d)) = locVar st
             \/ exists p, locVar (fst (st, d)) = formatPos p)
            /\ exists out, logged (fst (st, d)) = logged st ++ out).
  { intros d. split; [left; reflexivity|].
    exists []. rewrite app_nil_r. reflexivity. }
  unfold matchVisitor.
  destruct (negb (Line (nodePos n) =? line)); [intros [= <-]; apply Hsame|].
  destruct (isMethodCall n "dataloc" "L") as [[callee args]|];
    [|intros [= <-]; apply Hsame].
  destruct (index args 0) as [arg|msg]; simpl; [|discriminate].
  destruct (isSelector arg) as [[id key]|].
  - intros [= <-]. split; [apply resolveVia_locVar | apply resolveVia_logged].
  - destruct arg; try (intros [= <-]; apply Hsame).
    intros [= <-]. split; [apply resolveVia_locVar | apply resolveVia_logged].
Qed.

(** X16. When [loc] returns, the string is empty exactly when the error
    is not nil, and the error is the one of the step that failed among
    [os.Getwd], [filepath.Rel] and [parser.ParseFile]: after a successful
    parse [loc] returns no error and a string that is not empty. *)
Theorem loc_error_iff_empty (w : World) (value : string) (step : Z)
    (s : string) (err : option Error) :
  fst (loc Quote w value step) = Ret (s, err) ->
  (s = EmptyString <-> err <> None)
  /\ forall e, err = Some e <-> resolveCaller w step = Err e.
Proof.
  intros Hloc.
  destruct (resolveCaller w step) as [[f line]|e0] eqn:Hres.
  - destruct (loc_resolve_ok Quote w value step f line Hres)
      as (ix & log1 & _ & Hrun).
    rewrite Hrun in Hloc.
    destruct (Inspect _ f _) as [st|msg] eqn:Hinspect; [|discriminate].
    injection Hloc as <- <-.
    assert (Hst : locVar st <> EmptyString).
    { apply (Inspect_preserves (matchVisitor Quote line value ix)
               (fun st => locVar st <> EmptyString) f) with
        (s := mkMatch "(unknown)" (Log w ++ log1)); [|discriminate|exact Hinspect].
      intros m st0 r _ Hst0 Hv.
      destruct (matchVisitor_state line value ix m st0 r Hv) as [[->|(p & ->)] _];
        [exact Hst0 | apply formatPos_nonempty]. }
    split; [split; [contradiction | intros H; destruct H; reflexivity]|].
    intros e. split; discriminate.
  - rewrite (loc_resolve_err Quote w value step e0 Hres) in Hloc.
    injection Hloc as <- <-.
    split; [split; [discriminate | reflexivity]|].
    intros e. split; congruence.
Qed.

Lemma findTestCaseItem_log init key value typeDecl :
  Forall (fun ln => exists id, ln = "could not resolve type of " +:+ Name id)
    (snd (findTestCaseItem Quote init key value typeDecl)).
Proof.
  unfold findTestCaseItem.
  destruct init as [[]|]; simpl; try constructor.
  destruct Type_ as [[]|]; simpl; try constructor.
  destruct Elt; simpl; try constructor.
  destruct (typeDecl !! Obj id); simpl; constructor; [eauto | constructor].
Qed.

(** A visit that returns adds to the log nothing but lines of
    [findTestCaseItem]. *)
Lemma matchVisitor_logged line value ix n st r :
  matchVisitor Quote line value ix n st = Ret r ->
  exists out,
    logged (fst r) = logged st ++ out
    /\ Forall (fun ln => exists id,
                 ln = "could not resolve type of " +:+ Name id) out.
Proof.
  assert (Hsame : forall d : bool,
            exists out,
              logged (fst (st, d)) = logged st ++ out
              /\ Forall (fun ln => exists id,
                           ln = "could not resolve type of " +:+ Name id) out).
  { intros d. exists []. rewrite app_nil_r. split; [reflexivity | constructor]. }
  assert (Hvia : forall rangeExpr key,
            exists out,
              logged (fst (resolveVia Quote rangeExpr key value ix st))
              = logged st ++ out
              /\ Forall (fun ln => exists id,
                           ln = "could not resolve type of " +:+ Name id) out).
  { intros rangeExpr key. unfold resolveVia.
    destruct rangeExpr as [[]|]; try apply (Hsame true).
    pose proof (findTestCaseItem_log (objToVarInit ix !! Obj id) key value
                  (objToTypeDecl ix)) as Hlog.
    destruct (findTestCaseItem _ _ _ _ _) as [[nd|] out]; simpl in *; eauto. }
  unfold matchVisitor.
  destruct (negb (Line (nodePos n) =? line)); [intros [= <-]; apply Hsame|].
  destruct (isMethodCall n "dataloc" "L") as [[callee args]|];
    [|intros [= <-]; apply Hsame].
  destruct (index args 0) as [arg|msg]; simpl; [|discriminate].
  destruct (isSelector arg) as [[id key]|].
  - intros [= <-]. apply Hvia.
  - destruct arg; try (intros [= <-]; apply Hsame).
    intros [= <-]. apply Hvia.
Qed.

(** X17. A call of [loc] leaves the stack, the working directory and the
    files as they were, and only adds to the log: the line
    [Caller Step ...] first, whatever the outcome, and after it nothing
    but lines [could not resolve type of ...] of the matcher; what the
    matcher has logged stays in the log when a later visit panics. *)
Theorem loc_extends_log (w : World) (value : string) (step : Z) :
  exists l,
    snd (loc Quote w value step)
    = withLog w
        (Log w
         ++ callerLine step (fst (fst (Caller w step))) (snd (fst (Caller w step)))
         :: l)
    /\ Forall (fun ln => exists id,
                 ln = "could not resolve type of " +:+ Name id) l.
Proof.
  unfold loc. destruct (Caller w step) as [[file line] ok]. simpl.
  assert (Hnone : exists l,
            withLog w (Log w ++ [callerLine step file line])
            = withLog w (Log w ++ callerLine step file line :: l)
            /\ Forall (fun ln => exists id,
                         ln = "could not resolve type of " +:+ Name id) l)
    by (exists []; split; [reflexivity | constructor]).
  destruct (Getwd w) as [cwd|]; [|exact Hnone].
  destruct (Rel w cwd file) as [file'|]; [|exact Hnone].
  destruct (ParseFile w file') as [f|]; [|exact Hnone].
  destruct (buildIndex f) as [ix|]; [|exact Hnone].
  destruct (Inspect _ f _) as [run|msg] eqn:Hinspect; [|exact Hnone].
  assert (Hrun : exists l,
            logged (reached run) = (Log w ++ [callerLine step file line]) ++ l
            /\ Forall (fun ln => exists id,
                         ln = "could not resolve type of " +:+ Name id) l).
  { apply (Inspect_preserves (runVisitor (matchVisitor Quote line value ix))
             (fun run => exists l,
                logged (reached run)
                = (Log w ++ [callerLine step file line]) ++ l
                /\ Forall (fun ln => exists id,
                             ln = "could not resolve type of " +:+ Name id) l)
             f)
      with (s := mkRun (mkMatch "(unknown)" (Log w ++ [callerLine step file line]))
                   None);
      [|exists []; rewrite app_nil_r; split; [reflexivity | constructor]
       |exact Hinspect].
    intros m run0 r _ (l0 & Hl0 & Hall0). unfold runVisitor.
    destruct (panicked run0); [intros [= <-]; eauto|].
    destruct (matchVisitor Quote line value ix m (reached run0))
      as [[st d]|msg] eqn:Hv; intros [= <-]; simpl; [|eauto].
    destruct (matchVisitor_logged line value ix m (reached run0) _ Hv)
      as (out & Hout & Hall).
    simpl in Hout. exists (l0 ++ out). rewrite Hout, Hl0, <- app_assoc.
    split; [reflexivity | apply Forall_app; auto]. }
  destruct Hrun as (l & Hl & Hall). exists l.
  split; [|exact Hall].
  destruct (panicked run); simpl; rewrite Hl, <- app_assoc; reflexivity.
Qed.
End Returned.

(** The working directory is gone: the empty string and the error of
    [os.Getwd]. *)
Lemma loc_error_iff_empty_witness :
  (EmptyString = EmptyString <-> Some "getwd: no such file or directory"%string <> None)
  /\ forall e,
       Some "getwd: no such file or directory"%string = Some e <->
       resolveCaller (Sample.noCwd Sample.tableFile 2 14) 2 = Err e.
Proof.
  exact (loc_error_iff_empty QuoteASCII (Sample.noCwd Sample.tableFile 2 14) "a" 2
           EmptyString (Some "getwd: no such file or directory"%string)
           eq_refl).
Defined.

(** Line 14 of [Sample.logThenPanicFile] first resolves [tc.name], for
    which the matcher logs that the type [testcase] is not declared in the
    file, then reaches the call without arguments: [loc] panics, and the
    log has both lines. *)
Lemma loc_extends_log_witness :
  (exists l,
      snd (loc QuoteASCII (Sample.world Sample.logThenPanicFile 2 14) "a" 2)
      = withLog (Sample.world Sample.logThenPanicFile 2 14)
          ([] ++ callerLine 2 "/work/demo_test.go" 14 :: l)
      /\ Forall (fun ln => exists id,
                   ln = "could not resolve type of " +:+ Name id) l)
  /\ fst (loc QuoteASCII (Sample.world Sample.logThenPanicFile 2 14) "a" 2)
     = Panic "index out of range"
  /\ Log (snd (loc QuoteASCII (Sample.world Sample.logThenPanicFile 2 14) "a" 2))
     = [ "Caller Step 2: /work/demo_test.go 14"%string;
         "could not resolve type of testcase"%string ].
Proof.
  split; [|split; vm_compute; reflexivity].
  exact (loc_extends_log QuoteASCII
           (Sample.world Sample.logThenPanicFile 2 14) "a" 2).
Defined.
